(** * Zipbooks invoice parser: the extraction pipeline of [streamlit_app.py]

    A shallow embedding of the core of the application: the response
    sanitizer ([str.strip] and the two [re.sub] calls of [process_file]),
    the strict JSON decoder it feeds ([json.loads]), the PDF normalizer
    [convert_pdf_to_images], the orchestrator [process_file] and the
    download link [create_download_link], together with the properties the
    specification states about them and further properties of the code.

    Python text is a list of Unicode code points, files live in a finite
    map from paths to byte strings, and the effectful functions run in a
    state-and-exception monad over an explicit [World]. *)

From Stdlib Require Import NArith ZArith Ascii String Lia.
From Stdlib Require Strings.Byte.
From stdpp Require Import base option list strings gmap pretty.

Local Open Scope N_scope.
Local Set Warnings "-register-all".

(** ** Python text *)

(** A Python [str] is a sequence of code points. *)
Definition pystr := list N.

(** A literal written as a Coq string (ASCII only). *)
Definition lit (s : string) : pystr :=
  map N_of_ascii (list_ascii_of_string s).

(** [str.isspace] on one code point; [str.strip()] and the regular
    expression class [\s] use the same set for [str] patterns. *)
Definition py_isspace (c : N) : bool :=
  ((9 <=? c) && (c <=? 13)) || ((28 <=? c) && (c <=? 32))
  || (c =? 133) || (c =? 160) || (c =? 5760)
  || ((8192 <=? c) && (c <=? 8202))
  || (c =? 8232) || (c =? 8233) || (c =? 8239) || (c =? 8287)
  || (c =? 12288).

Fixpoint lstrip (s : pystr) : pystr :=
  match s with
  | c :: r => if py_isspace c then lstrip r else s
  | [] => []
  end.

Definition rstrip (s : pystr) : pystr := rev (lstrip (rev s)).

(** [text.strip()] *)
Definition strip (s : pystr) : pystr := rstrip (lstrip s).

Fixpoint startswith (p s : pystr) : bool :=
  match p, s with
  | [], _ => true
  | a :: p', b :: s' => (a =? b) && startswith p' s'
  | _ :: _, [] => false
  end.

Definition pystr_eqb (a b : pystr) : bool := bool_decide (a = b).

(** ** The two substitutions of the sanitizer *)

Definition BACKTICK : N := 96.
Definition NEWLINE : N := 10.

(** The closing marker, three backticks. *)
Definition fence : pystr := [BACKTICK; BACKTICK; BACKTICK].

(** The opening marker, three backticks followed by [json]. *)
Definition fence_json : pystr := fence ++ lit "json".

(** [re.sub(r'^```json\s*', '', s)]: without [re.MULTILINE] the anchor
    matches at offset 0 only, so at most one match is replaced: the marker
    and the longest run of whitespace after it. *)
Definition sub_open (s : pystr) : pystr :=
  if startswith fence_json s then lstrip (drop (length fence_json) s) else s.

(** Whether [\s*```$] matches at the start of [s], and what is left of [s]
    after the match.  A backtick is no whitespace, so the greedy [\s*] can
    only stop at the end of the whitespace run; [$] holds at the end of the
    text and just before a newline that ends the text. *)
Definition close_at (s : pystr) : option pystr :=
  let t := lstrip s in
  if pystr_eqb t fence then Some []
  else if pystr_eqb t (fence ++ [NEWLINE]) then Some [NEWLINE]
  else None.

(** [re.sub(r'\s*```$', '', s)]: the leftmost match is replaced; what
    follows a match is empty or one newline, where no second match fits. *)
Fixpoint sub_close (s : pystr) : pystr :=
  match close_at s with
  | Some rest => rest
  | None =>
      match s with
      | c :: r => c :: sub_close r
      | [] => []
      end
  end.

(** Lines 165-167 of [process_file]. *)
Definition sanitize (text : pystr) : pystr :=
  let json_text := strip text in
  let json_text := sub_open json_text in
  let json_text := sub_close json_text in
  json_text.

(** ** The JSON decoder: [json.loads]

    The decoder of the Python standard library, as its scanner decides
    what is accepted: objects, arrays, strings (strict mode: no raw control
    character), numbers, [true], [false], [null] and the constants [NaN],
    [Infinity] and [-Infinity].  A float is kept as the text that denotes
    it; the interpreter's recursion limit and its limit on the number of
    digits of an integer are not modelled. *)

Inductive json :=
  | JNull
  | JBool (b : bool)
  | JInt (z : Z)
  | JFloat (lexeme : pystr)
  | JString (s : pystr)
  | JArray (l : list json)
  | JObject (d : list (pystr * json)).

(** A Python [dict] built from text keys: insertion order, one entry per
    key, a later value replacing an earlier one in place. *)
Fixpoint dict_set (d : list (pystr * json)) (k : pystr) (v : json) :
    list (pystr * json) :=
  match d with
  | [] => [(k, v)]
  | (k', v') :: d' =>
      if pystr_eqb k' k then (k', v) :: d' else (k', v') :: dict_set d' k v
  end.

(** [dict(pairs)] *)
Definition dict (pairs : list (pystr * json)) : list (pystr * json) :=
  fold_left (fun d kv => dict_set d kv.1 kv.2) pairs [].

(** The outcome of scanning a prefix of the text: a value and the text
    after it, a rejection ([JSONDecodeError]), or the recursion bound of
    the model reached. *)
Inductive scan (A : Type) :=
  | Scanned (a : A) (rest : pystr)
  | Invalid
  | Exhausted.
Arguments Scanned {A} a rest.
Arguments Invalid {A}.
Arguments Exhausted {A}.

Definition scan_map {A B} (f : A → B) (x : scan A) : scan B :=
  match x with
  | Scanned a r => Scanned (f a) r
  | Invalid => Invalid
  | Exhausted => Exhausted
  end.

Definition QUOTE : N := 34.
Definition BACKSLASH : N := 92.
Definition LBRACE : N := 123.
Definition RBRACE : N := 125.
Definition LBRACKET : N := 91.
Definition RBRACKET : N := 93.
Definition COLON : N := 58.
Definition COMMA : N := 44.
Definition MINUS : N := 45.
Definition PLUS : N := 43.
Definition DOT : N := 46.
Definition ZERO : N := 48.

(** [WHITESPACE = re.compile(r'[ \t\n\r]*')] *)
Definition is_json_ws (c : N) : bool :=
  (c =? 32) || (c =? 9) || (c =? 10) || (c =? 13).

Fixpoint skip_ws (s : pystr) : pystr :=
  match s with
  | c :: r => if is_json_ws c then skip_ws r else s
  | [] => []
  end.

Definition is_digit (c : N) : bool := (48 <=? c) && (c <=? 57).

(** The longest run of digits at the start of the text, and what follows. *)
Fixpoint span_digits (s : pystr) : pystr * pystr :=
  match s with
  | c :: r =>
      if is_digit c then let '(ds, r') := span_digits r in (c :: ds, r')
      else ([], s)
  | [] => ([], [])
  end.

Definition hexval (c : N) : option N :=
  if is_digit c then Some (c - 48)
  else if (97 <=? c) && (c <=? 102) then Some (c - 87)
  else if (65 <=? c) && (c <=? 70) then Some (c - 55)
  else None.

(** The four hexadecimal digits of a [\uXXXX] escape. *)
Definition hex4 (s : pystr) : option (N * pystr) :=
  match s with
  | a :: b :: c :: d :: r =>
      match hexval a, hexval b, hexval c, hexval d with
      | Some x, Some y, Some z, Some w =>
          Some (x * 4096 + y * 256 + z * 16 + w, r)
      | _, _, _, _ => None
      end
  | _ => None
  end.

(** The [BACKSLASH] table of the decoder. *)
Definition backslash (c : N) : option N :=
  if c =? QUOTE then Some QUOTE
  else if c =? BACKSLASH then Some BACKSLASH
  else if c =? 47 then Some 47
  else if c =? 98 then Some 8
  else if c =? 102 then Some 12
  else if c =? 110 then Some 10
  else if c =? 114 then Some 13
  else if c =? 116 then Some 9
  else None.

Definition is_high_surrogate (u : N) : bool := (55296 <=? u) && (u <=? 56319).
Definition is_low_surrogate (u : N) : bool := (56320 <=? u) && (u <=? 57343).
Definition join_surrogates (u u2 : N) : N :=
  65536 + ((u - 55296) * 1024 + (u2 - 56320)).

(** [scanstring(s, end, strict=True)], from the character after the
    opening quote: the decoded text and what follows the closing quote. *)
Fixpoint scanstring (fuel : nat) (s : pystr) : scan pystr :=
  match fuel with
  | O => Exhausted
  | S f =>
      match s with
      | [] => Invalid
      | c :: r =>
          if c =? QUOTE then Scanned [] r
          else if c =? BACKSLASH then
            match r with
            | [] => Invalid
            | e :: r1 =>
                if e =? 117 then
                  match hex4 r1 with
                  | None => Invalid
                  | Some (u, r2) =>
                      if is_high_surrogate u && startswith [BACKSLASH; 117] r2 then
                        match hex4 (drop 2 r2) with
                        | None => Invalid
                        | Some (u2, r3) =>
                            if is_low_surrogate u2
                            then scan_map (cons (join_surrogates u u2)) (scanstring f r3)
                            else scan_map (cons u) (scanstring f r2)
                        end
                      else scan_map (cons u) (scanstring f r2)
                  end
                else
                  match backslash e with
                  | Some ch => scan_map (cons ch) (scanstring f r1)
                  | None => Invalid
                  end
            end
          else if c <=? 31 then Invalid
          else scan_map (cons c) (scanstring f r)
      end
  end.

(** [int(integer)] on a run of decimal digits. *)
Definition int_of_digits (ds : pystr) : Z :=
  fold_left (fun acc c => (acc * 10 + Z.of_N (c - 48))%Z) ds 0%Z.

(** The fraction [(\.\d+)?] of a number. *)
Definition scan_frac (s : pystr) : pystr * pystr :=
  match s with
  | d :: c :: r =>
      if (d =? DOT) && is_digit c
      then let '(ds, r') := span_digits r in (d :: c :: ds, r')
      else ([], s)
  | _ => ([], s)
  end.

(** The exponent [([eE][-+]?\d+)?] of a number. *)
Definition scan_exp (s : pystr) : pystr * pystr :=
  match s with
  | e :: r =>
      if (e =? 101) || (e =? 69) then
        match r with
        | sg :: r' =>
            if (sg =? MINUS) || (sg =? PLUS) then
              match span_digits r' with
              | ([], _) => ([], s)
              | (ds, r'') => (e :: sg :: ds, r'')
              end
            else
              match span_digits r with
              | ([], _) => ([], s)
              | (ds, r'') => (e :: ds, r'')
              end
        | [] => ([], s)
        end
      else ([], s)
  | [] => ([], s)
  end.

(** The integer part of a number, sign apart: a single [0], or a digit
    from 1 to 9 and the digits after it. *)
Definition scan_int (s : pystr) : option (pystr * pystr) :=
  match s with
  | c :: r =>
      if c =? ZERO then Some ([c], r)
      else if is_digit c then let '(ds, r') := span_digits r in Some (c :: ds, r')
      else None
  | [] => None
  end.

(** The groups of [NUMBER_RE] after the sign, and their conversion:
    [int] without fraction and exponent, [float] otherwise. *)
Definition number_body (neg : bool) (s1 : pystr) : option (json * pystr) :=
  match scan_int s1 with
  | None => None
  | Some (ds, r1) =>
      let '(frac, r2) := scan_frac r1 in
      let '(exp, r3) := scan_exp r2 in
      match frac, exp with
      | [], [] =>
          Some (JInt (if neg then - int_of_digits ds else int_of_digits ds)%Z, r3)
      | _, _ =>
          Some (JFloat ((if neg then [MINUS] else []) ++ ds ++ frac ++ exp), r3)
      end
  end.

(** [NUMBER_RE.match] *)
Definition match_number (s : pystr) : option (json * pystr) :=
  match s with
  | c :: r => if c =? MINUS then number_body true r else number_body false s
  | [] => None
  end.

(** A keyword of the scanner: [string[idx:idx + n] == word]. *)
Definition keyword (word : string) (v : json) (s : pystr) : option (json * pystr) :=
  if startswith (lit word) s then Some (v, drop (length (lit word)) s) else None.

(** What [_scan_once] accepts besides strings, objects and arrays. *)
Definition scan_atom (s : pystr) : scan json :=
  match keyword "null" JNull s with
  | Some (v, r) => Scanned v r
  | None =>
  match keyword "true" (JBool true) s with
  | Some (v, r) => Scanned v r
  | None =>
  match keyword "false" (JBool false) s with
  | Some (v, r) => Scanned v r
  | None =>
  match match_number s with
  | Some (v, r) => Scanned v r
  | None =>
  match keyword "NaN" (JFloat (lit "NaN")) s with
  | Some (v, r) => Scanned v r
  | None =>
  match keyword "Infinity" (JFloat (lit "Infinity")) s with
  | Some (v, r) => Scanned v r
  | None =>
  match keyword "-Infinity" (JFloat (lit "-Infinity")) s with
  | Some (v, r) => Scanned v r
  | None => Invalid
  end end end end end end end.

(** [_scan_once], [JSONObject] (from the first key on) and [JSONArray]
    (from the first element on). *)
Fixpoint scan_once (fuel : nat) (s : pystr) {struct fuel} : scan json :=
  match fuel with
  | O => Exhausted
  | S f =>
      match s with
      | [] => Invalid
      | c :: r =>
          if c =? QUOTE then scan_map JString (scanstring f r)
          else if c =? LBRACE then
            match skip_ws r with
            | c1 :: r1 =>
                if c1 =? RBRACE then Scanned (JObject []) r1
                else if c1 =? QUOTE
                then scan_map (fun pairs => JObject (dict pairs)) (scan_members f r1)
                else Invalid
            | [] => Invalid
            end
          else if c =? LBRACKET then
            match skip_ws r with
            | c1 :: r1 =>
                if c1 =? RBRACKET then Scanned (JArray []) r1
                else scan_map JArray (scan_elems f (c1 :: r1))
            | [] => Invalid
            end
          else scan_atom s
      end
  end
with scan_members (fuel : nat) (s : pystr) {struct fuel} :
    scan (list (pystr * json)) :=
  match fuel with
  | O => Exhausted
  | S f =>
      match scanstring f s with
      | Scanned key r =>
          match skip_ws r with
          | c :: r1 =>
              if c =? COLON then
                match scan_once f (skip_ws r1) with
                | Scanned value r2 =>
                    match skip_ws r2 with
                    | c2 :: r3 =>
                        if c2 =? RBRACE then Scanned [(key, value)] r3
                        else if c2 =? COMMA then
                          match skip_ws r3 with
                          | c3 :: r4 =>
                              if c3 =? QUOTE
                              then scan_map (cons (key, value)) (scan_members f r4)
                              else Invalid
                          | [] => Invalid
                          end
                        else Invalid
                    | [] => Invalid
                    end
                | Invalid => Invalid
                | Exhausted => Exhausted
                end
              else Invalid
          | [] => Invalid
          end
      | Invalid => Invalid
      | Exhausted => Exhausted
      end
  end
with scan_elems (fuel : nat) (s : pystr) {struct fuel} : scan (list json) :=
  match fuel with
  | O => Exhausted
  | S f =>
      match scan_once f s with
      | Scanned value r =>
          match skip_ws r with
          | c :: r1 =>
              if c =? RBRACKET then Scanned [value] r1
              else if c =? COMMA
              then scan_map (cons value) (scan_elems f (skip_ws r1))
              else Invalid
          | [] => Invalid
          end
      | Invalid => Invalid
      | Exhausted => Exhausted
      end
  end.

(** [json.loads(s)] for a [str]: [None] stands for [JSONDecodeError]. *)
Definition json_loads (s : pystr) : option json :=
  if startswith [65279] s then None
  else
    match scan_once (S (2 * length s)) (skip_ws s) with
    | Scanned v r => match skip_ws r with [] => Some v | _ :: _ => None end
    | Invalid | Exhausted => None
    end.

(** JSON text written with an apostrophe for each double quote. *)
Definition jlit (s : string) : pystr :=
  map (fun c => if c =? 39 then QUOTE else c) (lit s).

(** Whether the text holds a run of three backticks. *)
Fixpoint has_fence (t : pystr) : bool :=
  startswith fence t || match t with _ :: r => has_fence r | [] => false end.

(** ** The world of the pipeline *)

Definition bytes := list Byte.byte.

(** What a file holds: bytes written in binary mode or text written in
    text mode. *)
Inductive content :=
  | Binary (data : bytes)
  | Text (text : pystr).

(** The exceptions that reach the code of the application. *)
Inductive exn :=
  | UnboundLocalError
  | ReadError            (* [pdf_file.read()] or [Image.open] cannot read *)
  | RenderError          (* [convert_from_path] rejects the document *)
  | ImageError           (* PIL cannot decode or encode the image *)
  | FileNotFoundError
  | IndexError
  | BackendError         (* [generate_content] fails *)
  | ValueError           (* a response without text *)
  | JSONDecodeError.

(** The three instruction texts of [process_file]; they are fixed, and
    only which one is sent matters here. *)
Inductive prompt := json_prompt | summary_prompt | csv_prompt.

(** One image part of a request: [{"mime_type": ..., "data": ...}]. *)
Record part := { mime_type : string; data : bytes }.

(** What [generate_content] gives back; [.text] raises on a response
    without text. *)
Inductive response :=
  | WithText (text : pystr)
  | WithoutText.

(** What the backend does with one request. *)
Inductive reply :=
  | Answer (r : response)
  | Failure.

(** [create_gemini_model()]: the model name and the generation
    configuration (temperature and top_p in hundredths). *)
Record GenerativeModel := {
  model_name : string;
  temperature : nat;
  top_p : nat;
  top_k : nat;
  max_output_tokens : N
}.

(** One request as the backend sees it. *)
Record call := {
  call_key : option string;
  call_model : GenerativeModel;
  call_parts : list part;
  call_prompt : prompt
}.

(** The records the application logs, one constructor per call site. *)
Inductive log_record :=
  | LogConversionStarted
  | LogPageSaved (i : nat) (image_path : string)
  | LogConversionError (e : exn)
  | LogConversionCompleted
  | LogJsonExtracted
  | LogJsonError
  | LogRawResponse (head : pystr)
  | LogRawSaved.

Record World := {
  fs : gmap string content;      (* the files, by path *)
  tmp_created : nat;             (* temporary files created so far *)
  api_key : option string;       (* set by [genai.configure] *)
  calls : list call;             (* the requests sent to the backend *)
  draws : nat;                   (* random numbers drawn so far *)
  log : list log_record
}.

Definition with_fs (f : gmap string content → gmap string content) (w : World) :=
  {| fs := f (fs w); tmp_created := tmp_created w; api_key := api_key w;
     calls := calls w; draws := draws w; log := log w |}.

(** An uploaded file: its declared media type, and what [read()] returns
    ([None] when reading raises). *)
Record UploadedFile := { type : string; read : option bytes }.

(** ** A state and exception monad *)

Inductive outcome (A : Type) :=
  | Return (a : A)
  | Raise (e : exn).
Arguments Return {A} a.
Arguments Raise {A} e.

Definition M (S A : Type) : Type := S → outcome A * S.

Definition ret {S A} (a : A) : M S A := fun s => (Return a, s).
Definition raise {S A} (e : exn) : M S A := fun s => (Raise e, s).
Definition bind {S A B} (m : M S A) (k : A → M S B) : M S B :=
  fun s =>
    match m s with
    | (Return a, s') => k a s'
    | (Raise e, s') => (Raise e, s')
    end.

Notation "x <- m ;; k" := (bind m (fun x => k))
  (at level 62, m at next level, right associativity).
Notation "m ;;; k" := (bind m (fun _ => k))
  (at level 62, right associativity).

Definition get {S} : M S S := fun s => (Return s, s).
Definition modify {S} (f : S → S) : M S unit := fun s => (Return tt, f s).

(** [try: body except <caught>: handler], the local state kept. *)
Definition try_except {S A} (caught : exn → bool) (body : M S A)
    (handler : exn → M S A) : M S A :=
  fun s =>
    match body s with
    | (Return a, s') => (Return a, s')
    | (Raise e, s') => if caught e then handler e s' else (Raise e, s')
    end.

(** [try: body finally: final]: [final] runs on both exits, and what it
    raises replaces the outcome of [body]. *)
Definition try_finally {S A} (body : M S A) (final : M S unit) : M S A :=
  fun s =>
    match body s with
    | (r, s') =>
        match final s' with
        | (Return _, s'') => (r, s'')
        | (Raise e, s'') => (Raise e, s'')
        end
    end.

(** [for x in l: body x] *)
Fixpoint for_each {S A} (l : list A) (body : A → M S unit) : M S unit :=
  match l with
  | [] => ret tt
  | x :: l' => body x ;;; for_each l' body
  end.

(** [[f x for x in l]] *)
Fixpoint map_each {S A B} (l : list A) (f : A → M S B) : M S (list B) :=
  match l with
  | [] => ret []
  | x :: l' => y <- f x ;; ys <- map_each l' f ;; ret (y :: ys)
  end.

(** [except Exception] and [except json.JSONDecodeError] *)
Definition Exception (e : exn) : bool := true.
Definition is_JSONDecodeError (e : exn) : bool :=
  match e with JSONDecodeError => true | _ => false end.

(** ** Files, logging, the random source and the backend *)

(** [logging.info] and [logging.error] *)
Definition logging (r : log_record) : M World unit :=
  modify (fun w =>
    {| fs := fs w; tmp_created := tmp_created w; api_key := api_key w;
       calls := calls w; draws := draws w; log := log w ++ [r] |}).

(** Writing a file in the working directory, taken to succeed. *)
Definition write_file (p : string) (c : content) : M World unit :=
  modify (with_fs (insert p c)).

(** [os.unlink] and [os.remove] *)
Definition os_unlink (p : string) : M World unit :=
  fun w =>
    match fs w !! p with
    | Some _ => (Return tt, with_fs (delete p) w)
    | None => (Raise FileNotFoundError, w)
    end.

(** [os.path.exists] *)
Definition os_path_exists (p : string) : M World bool :=
  fun w => (Return (bool_decide (is_Some (fs w !! p))), w).

(** [open(path, "rb").read()].  The application reads back only files it
    wrote in binary mode; the bytes of a text file depend on the encoding
    of the platform and are left empty. *)
Definition read_binary (p : string) : M World bytes :=
  fun w =>
    match fs w !! p with
    | Some (Binary b) => (Return b, w)
    | Some (Text _) => (Return [], w)
    | None => (Raise FileNotFoundError, w)
    end.

(** [f"page_{n}.png"] *)
Definition page_path (n : nat) : string := "page_" +:+ pretty n +:+ ".png".

(** The name of the [n]-th temporary file; [tempfile] picks an unused
    name at random, a counter stands for it. *)
Definition tmp_name (n : nat) (suffix : string) : string :=
  "/tmp/tmp" +:+ pretty n +:+ suffix.

(** [tempfile.NamedTemporaryFile(delete=False, suffix=...)]: an empty file
    under a new name. *)
Definition NamedTemporaryFile (suffix : string) : M World string :=
  fun w =>
    let name := tmp_name (tmp_created w) suffix in
    (Return name,
     {| fs := <[name := Binary []]> (fs w); tmp_created := S (tmp_created w);
        api_key := api_key w; calls := calls w; draws := draws w;
        log := log w |}).

(** [file.read()] *)
Definition file_read (file : UploadedFile) : M World bytes :=
  match read file with
  | Some b => ret b
  | None => raise ReadError
  end.

(** [response.text] *)
Definition response_text (r : response) : M World pystr :=
  match r with
  | WithText t => ret t
  | WithoutText => raise ValueError
  end.

(** [create_gemini_model()] *)
Definition create_gemini_model : GenerativeModel :=
  {| model_name := "gemini-1.5-pro"; temperature := 35; top_p := 95;
     top_k := 64; max_output_tokens := 8192 |}.

(** [genai.configure(api_key=key)] *)
Definition genai_configure (key : string) : M World unit :=
  modify (fun w =>
    {| fs := fs w; tmp_created := tmp_created w; api_key := Some key;
       calls := calls w; draws := draws w; log := log w |}).

(** The request [process_file] sends for one prompt. *)
Definition request (key : option string) (parts : list part) (p : prompt) : call :=
  {| call_key := key; call_model := create_gemini_model;
     call_parts := parts; call_prompt := p |}.

Section pipeline.
(** The libraries and services around the application. *)
Variable image : Type.
(** [PIL.Image.open] on the bytes of a file; [None] when it raises. *)
Variable Image_open : bytes → option image.
(** The PNG encoding [image.save(path, "PNG")] writes; [None] when it raises. *)
Variable png_encode : image → option bytes.
(** [pdf2image.convert_from_path] on the bytes of the file at the path:
    one image per page; [None] when it raises. *)
Variable convert_from_path : bytes → option (list image).
(** The configured pool, [os.getenv('GEMINI_API_KEYS').split(',')]. *)
Variable GEMINI_API_KEYS : list string.
(** The numbers the random generator gives, in the order drawn. *)
Variable entropy : nat → nat.
(** The backend: what it does with the [n]-th request. *)
Variable backend : nat → call → reply.

(** [random.choice(seq)]: the element at a random index below [len(seq)]. *)
Definition random_choice (seq : list string) : M World string :=
  fun w =>
    match seq !! (entropy (draws w) `mod` length seq)%nat with
    | Some x =>
        (Return x,
         {| fs := fs w; tmp_created := tmp_created w; api_key := api_key w;
            calls := calls w; draws := S (draws w); log := log w |})
    | None => (Raise IndexError, w)
    end.

(** [get_random_api_key()] *)
Definition get_random_api_key : M World string :=
  random_choice GEMINI_API_KEYS.

(** The index [random.choice] draws in world [w]. *)
Definition drawn (w : World) : nat :=
  (entropy (draws w) `mod` length GEMINI_API_KEYS)%nat.

(** [image.save(image_path, "PNG")] *)
Definition image_save (img : image) (image_path : string) : M World unit :=
  match png_encode img with
  | Some b => write_file image_path (Binary b)
  | None => raise ImageError
  end.

(** [model.generate_content(parts + [prompt])] with the key configured
    at the time of the request. *)
Definition generate_content (model : GenerativeModel) (parts : list part)
    (p : prompt) : M World response :=
  fun w =>
    let c := {| call_key := api_key w; call_model := model;
                call_parts := parts; call_prompt := p |} in
    let w' := {| fs := fs w; tmp_created := tmp_created w;
                 api_key := api_key w; calls := calls w ++ [c];
                 draws := draws w; log := log w |} in
    match backend (length (calls w)) c with
    | Answer r => (Return r, w')
    | Failure => (Raise BackendError, w')
    end.

(** *** [convert_pdf_to_images] *)

(** The local variables of the function that outlive the [try] block,
    next to the world. *)
Record Frame := {
  images : list string;
  temp_pdf_path : option string;
  world : World
}.

(** A step on the world, inside the function. *)
Definition lift {A} (m : M World A) : M Frame A :=
  fun fr =>
    match m (world fr) with
    | (r, w') =>
        (r, {| images := images fr; temp_pdf_path := temp_pdf_path fr;
               world := w' |})
    end.

(** [temp_pdf_path = temp_pdf.name] *)
Definition set_temp_pdf_path (p : string) : M Frame unit :=
  modify (fun fr =>
    {| images := images fr; temp_pdf_path := Some p; world := world fr |}).

(** Reading the variable [temp_pdf_path]. *)
Definition get_temp_pdf_path : M Frame string :=
  fun fr =>
    match temp_pdf_path fr with
    | Some p => (Return p, fr)
    | None => (Raise UnboundLocalError, fr)
    end.

(** [images.append(image_path)] *)
Definition images_append (image_path : string) : M Frame unit :=
  modify (fun fr =>
    {| images := images fr ++ [image_path];
       temp_pdf_path := temp_pdf_path fr; world := world fr |}).

(** The loop over [enumerate(pdf_images)], from index [i] on. *)
Fixpoint save_pages (i : nat) (pdf_images : list image) : M Frame unit :=
  match pdf_images with
  | [] => ret tt
  | img :: rest =>
      let image_path := page_path (i + 1) in
      lift (image_save img image_path) ;;;
      images_append image_path ;;;
      lift (logging (LogPageSaved (i + 1) image_path)) ;;;
      save_pages (S i) rest
  end.

(** A call of the function: its body runs on a frame where [images] is
    the empty list and [temp_pdf_path] is not bound yet. *)
Definition in_frame {A} (body : M Frame A) : M World A :=
  fun w =>
    match body {| images := []; temp_pdf_path := None; world := w |} with
    | (r, fr) => (r, world fr)
    end.

Definition convert_pdf_to_images (pdf_file : UploadedFile) :
    M World (list string) :=
  in_frame
    (lift (logging LogConversionStarted) ;;;
     try_finally
       (try_except Exception
          (temp_pdf <- lift (NamedTemporaryFile ".pdf") ;;
           content <- lift (file_read pdf_file) ;;
           lift (write_file temp_pdf (Binary content)) ;;;
           set_temp_pdf_path temp_pdf ;;;
           p <- get_temp_pdf_path ;;
           pdf_bytes <- lift (read_binary p) ;;
           match convert_from_path pdf_bytes with
           | Some pdf_images => save_pages 0 pdf_images
           | None => raise RenderError
           end)
          (fun e => lift (logging (LogConversionError e))))
       (p <- get_temp_pdf_path ;; lift (os_unlink p)) ;;;
     lift (logging LogConversionCompleted) ;;;
     fr <- get ;; ret (images fr)).

(** How many pages of the rendering are saved: all of them, or those in
    front of the first one [image.save] fails on; none when the
    rendering itself fails. *)
Fixpoint saved_prefix (pdf_images : list image) : nat :=
  match pdf_images with
  | img :: rest =>
      match png_encode img with
      | Some _ => S (saved_prefix rest)
      | None => 0
      end
  | [] => 0
  end.

(** The same, from what [convert_from_path] gives. *)
Definition pages_saved (rendering : option (list image)) : nat :=
  match rendering with
  | Some pdf_images => saved_prefix pdf_images
  | None => 0
  end.

(** [image_to_bytes] *)
Definition image_to_bytes (image_path : string) : M World bytes :=
  read_binary image_path.

(** *** [process_file] *)

(** Lines 73-81: the page images of the document and the parts sent to
    the backend. *)
Definition normalize (file : UploadedFile) : M World (list string * list part) :=
  images <-
    (if bool_decide (type file = "application/pdf")
     then convert_pdf_to_images file
     else
       content <- file_read file ;;
       match Image_open content with
       | Some image =>
           let temp_image_path := "temp_image.png" in
           image_save image temp_image_path ;;;
           ret [temp_image_path]
       | None => raise ImageError
       end) ;;
  image_bytes_list <-
    map_each images (fun path =>
      d <- image_to_bytes path ;;
      ret {| mime_type := "image/png"; data := d |}) ;;
  ret (images, image_bytes_list).

(** Lines 163-184: sanitizing and decoding the response of the JSON
    pass, and the handler of [json.JSONDecodeError]. *)
Definition extract_json (json_response : response) (images : list string) :
    M World json :=
  try_except is_JSONDecodeError
    (text <- response_text json_response ;;
     let json_text := sanitize text in
     match json_loads json_text with
     | Some extracted_data =>
         logging LogJsonExtracted ;;; ret extracted_data
     | None => raise JSONDecodeError
     end)
    (fun e =>
       logging LogJsonError ;;;
       text <- response_text json_response ;;
       logging (LogRawResponse (take 500 text)) ;;;
       write_file "invalid_json_response.txt" (Text text) ;;;
       logging LogRawSaved ;;;
       let extracted_data := JObject [] in
       for_each images (fun image_path =>
         b <- os_path_exists image_path ;;
         if b then os_unlink image_path else ret tt) ;;;
       ret extracted_data).

Definition process_file (file : UploadedFile) : M World (json * pystr * pystr) :=
  pages <- normalize file ;;
  let '(images, image_bytes_list) := pages in
  key <- get_random_api_key ;;
  genai_configure key ;;;
  let model := create_gemini_model in
  json_response <- generate_content model image_bytes_list json_prompt ;;
  extracted_data <- extract_json json_response images ;;
  summary_response <- generate_content model image_bytes_list summary_prompt ;;
  summary_text <- response_text summary_response ;;
  csv_response <- generate_content model image_bytes_list csv_prompt ;;
  csv_text <- response_text csv_response ;;
  ret (extracted_data, summary_text, csv_text).
End pipeline.

(** ** The download link: [create_download_link] *)

(** The alphabet of [base64.b64encode]. *)
Definition b64_alphabet : pystr :=
  lit "ABCDEFGHIJKLMNOPQRSTUVWXYZabcdefghijklmnopqrstuvwxyz0123456789+/".

(** The character for a group of six bits. *)
Definition b64_char (i : N) : N := nth (N.to_nat i) b64_alphabet 0.

(** The padding character [=]. *)
Definition PAD : N := 61.

(** [base64.b64encode] on the values of the bytes: three bytes give four
    characters, and a last group of one or two bytes is padded. *)
Fixpoint b64encode_values (l : list N) : pystr :=
  match l with
  | a :: b :: c :: r =>
      let x := a * 65536 + b * 256 + c in
      b64_char (x / 262144) :: b64_char ((x / 4096) `mod` 64)
      :: b64_char ((x / 64) `mod` 64) :: b64_char (x `mod` 64)
      :: b64encode_values r
  | [a; b] =>
      let x := a * 65536 + b * 256 in
      [b64_char (x / 262144); b64_char ((x / 4096) `mod` 64);
       b64_char ((x / 64) `mod` 64); PAD]
  | [a] =>
      let x := a * 65536 in
      [b64_char (x / 262144); b64_char ((x / 4096) `mod` 64); PAD; PAD]
  | [] => []
  end.

(** [base64.b64encode(file_content).decode()] *)
Definition b64encode (file_content : bytes) : pystr :=
  b64encode_values (map Byte.to_N file_content).

(** [create_download_link(file_content, filename)] *)
Definition create_download_link (file_content : bytes) (filename : pystr) : pystr :=
  let b64 := b64encode file_content in
  jlit "<a href='data:application/octet-stream;base64," ++ b64
  ++ jlit "' download='" ++ filename ++ jlit "'>Download " ++ filename
  ++ jlit "</a>".

(** ** A small instance of the surroundings

    Images are their pixel bytes, the PNG encoder puts one byte in front,
    the PDF renderer makes one page of every byte of the document and
    rejects the empty document; the pool holds two keys, the random source
    counts up, and the backend answers the JSON pass with a given text. *)
Module Demo.
Definition image : Type := bytes.

Definition Image_open (b : bytes) : option image :=
  match b with [] => None | _ :: _ => Some b end.

Definition png_encode (img : image) : option bytes := Some (Byte.x50 :: img).

Definition convert_from_path (b : bytes) : option (list image) :=
  match b with [] => None | _ :: _ => Some (map (fun x => [x]) b) end.

Definition GEMINI_API_KEYS : list string := ["key-a"; "key-b"].

Definition entropy (n : nat) : nat := n.

Definition backend (json_text : pystr) (n : nat) (c : call) : reply :=
  match call_prompt c with
  | json_prompt => Answer (WithText json_text)
  | summary_prompt => Answer (WithText (lit "An invoice."))
  | csv_prompt => Answer (WithText (lit "Item 1,2,$10.00,$20.00"))
  end.

Definition w0 : World :=
  {| fs := ∅; tmp_created := 0; api_key := None; calls := []; draws := 0;
     log := [] |}.

(** A PDF of two pages, a PDF the renderer rejects, an upload that
    cannot be read, and a JPEG image. *)
Definition two_pages : UploadedFile :=
  {| type := "application/pdf"; read := Some [Byte.x01; Byte.x02] |}.
Definition corrupt : UploadedFile :=
  {| type := "application/pdf"; read := Some [] |}.
Definition unreadable : UploadedFile :=
  {| type := "application/pdf"; read := None |}.
Definition photo : UploadedFile :=
  {| type := "image/jpeg"; read := Some [Byte.xff; Byte.xd8] |}.

Definition convert (file : UploadedFile) : M World (list string) :=
  convert_pdf_to_images image png_encode convert_from_path file.

Definition process (json_text : pystr) (file : UploadedFile) :
    M World (json * pystr * pystr) :=
  process_file image Image_open png_encode convert_from_path
    GEMINI_API_KEYS entropy (backend json_text) file.

(** A response with prose in front of fenced JSON. *)
Definition prose_wrapped : pystr :=
  lit "Here is the data:
```json
" ++ jlit "{'a': 1}" ++ lit "
```".

(** A backend that fails every request, one that answers without text,
    and one that answers the first request and fails the later ones. *)
Definition failing (n : nat) (c : call) : reply := Failure.
Definition mute (n : nat) (c : call) : reply := Answer WithoutText.


(** A working directory that holds a file of the user. *)
Definition w_notes : World :=
  {| fs := {["notes.txt" := Text (lit "keep")]}; tmp_created := 0;
     api_key := None; calls := []; draws := 0; log := [] |}.
End Demo.

(** ** Predicates of the statements and proofs *)

(** [consumed s r]: [r] is what is left of [s] after a non-empty prefix
    whose last character is no whitespace. *)
Definition consumed (s r : pystr) : Prop :=
  ∃ a c, s = a ++ c :: r ∧ py_isspace c = false.

(** What a scanner returns on [s ++ w] when it stops inside [s]. *)
Definition push {A} (w : pystr) (x : scan A) : scan A :=
  match x with
  | Scanned a r => Scanned a (r ++ w)
  | Invalid => Invalid
  | Exhausted => Exhausted
  end.

Definition push_opt {A} (w : pystr) (x : option (A * pystr)) : option (A * pystr) :=
  match x with
  | Some (a, r) => Some (a, r ++ w)
  | None => None
  end.

(** [w] consists of JSON whitespace. *)
Definition blank (w : pystr) : Prop := Forall (fun c => is_json_ws c = true) w.

(** The characters a JSON value can start with. *)
Definition value_start (c : N) : bool :=
  (c =? QUOTE) || (c =? LBRACE) || (c =? LBRACKET)
  || (c =? 110) || (c =? 116) || (c =? 102) || (c =? 78) || (c =? 73)
  || (c =? MINUS) || is_digit c.

(** All characters are whitespace in the sense of [str.isspace]. *)
Definition spaces (w : pystr) : Prop := Forall (fun c => py_isspace c = true) w.

(** The text ends with a visible character. *)
Definition ends_visible (s : pystr) : Prop :=
  ∃ a c, s = a ++ [c] ∧ py_isspace c = false.

(** Text between the markers: whitespace [x], a core without whitespace at
    either end, whitespace [y]. *)
Definition fenced (x body y : pystr) : pystr :=
  fence_json ++ x ++ body ++ y ++ fence.

(** The text holds no run of three backticks. *)
Definition no_fence (t : pystr) : Prop := ∀ a b, t ≠ a ++ fence ++ b.

(** [m] does not change what [view] shows of the state, on any exit. *)
Definition keeps {S A X} (view : S → X) (m : M S A) : Prop :=
  ∀ s, view (m s).2 = view s.

(** What the backend and the random source see of the world. *)
Definition service_view (w : World) : option string * list call * nat :=
  (api_key w, calls w, draws w).

(** The part the backend is sent for the bytes of one page image. *)
Definition png_part (d : bytes) : part :=
  {| mime_type := "image/png"; data := d |}.

(** A character of the encoding: of the alphabet, or the padding. *)
Definition b64_symbol (c : N) : Prop := c ∈ b64_alphabet ∨ c = PAD.

(** The values of bytes. *)
Definition octets (l : list N) : Prop := Forall (fun v => v < 256) l.

(** * Lemmas *)

Example sanitize_fenced :
  sanitize (lit "  ```json
{}
```
") = lit "{}".
Proof. vm_compute. reflexivity. Qed.

(** ** Whitespace and the sanitizer: basic facts *)

Lemma json_ws_isspace c : is_json_ws c = true → py_isspace c = true.
Proof.
  unfold is_json_ws. rewrite !orb_true_iff, !N.eqb_eq.
  intros [[[->| ->]| ->]| ->]; reflexivity.
Qed.

Lemma lstrip_suffix s : lstrip s `suffix_of` s.
Proof.
  induction s as [|c r IH]; simpl; [done|].
  destruct (py_isspace c); [by apply suffix_cons_r|done].
Qed.

Lemma skip_ws_suffix s : skip_ws s `suffix_of` s.
Proof.
  induction s as [|c r IH]; simpl; [done|].
  destruct (is_json_ws c); [by apply suffix_cons_r|done].
Qed.

Lemma lstrip_head c r : py_isspace c = false → lstrip (c :: r) = c :: r.
Proof. intros H. simpl. by rewrite H. Qed.

Lemma lstrip_spaces_app w s :
  Forall (fun c => py_isspace c = true) w → lstrip (w ++ s) = lstrip s.
Proof. induction 1 as [|c w Hc _ IH]; simpl; [done|]. by rewrite Hc. Qed.

Lemma lstrip_idem s : lstrip (lstrip s) = lstrip s.
Proof.
  induction s as [|c r IH]; simpl; [done|].
  destruct (py_isspace c) eqn:E; [done|]. simpl. by rewrite E.
Qed.

Lemma startswith_spec p s : startswith p s = true ↔ ∃ r, s = p ++ r.
Proof.
  revert s. induction p as [|a p IH]; intros s; simpl.
  - split; [eauto|done].
  - destruct s as [|b s]; [split; [done|by intros [? ?]]|].
    rewrite andb_true_iff, N.eqb_eq, IH. split.
    + intros [-> [r ->]]. eauto.
    + intros [r [= -> ->]]. eauto.
Qed.

Lemma startswith_drop p s :
  startswith p s = true → s = p ++ drop (length p) s.
Proof.
  intros [r ->]%startswith_spec. by rewrite drop_app_length.
Qed.

(** ** The decoder consumes a prefix that ends in a visible character *)

Lemma consumed_suffix s s' r : s' `suffix_of` s → consumed s' r → consumed s r.
Proof.
  intros [k ->] (a & c & -> & Hc). exists (k ++ a), c.
  by rewrite <-app_assoc.
Qed.

Lemma consumed_length s r : consumed s r → (length r < length s)%nat.
Proof. intros (a & c & -> & _). rewrite length_app. simpl. lia. Qed.

Lemma consumed_head c r : py_isspace c = false → consumed (c :: r) r.
Proof. intros H. by exists [], c. Qed.

Lemma consumed_step c s r : consumed s r → consumed (c :: s) r.
Proof. apply consumed_suffix. by apply suffix_cons_r. Qed.

Lemma scan_map_Scanned {A B} (g : A → B) x b r :
  scan_map g x = Scanned b r → ∃ a, x = Scanned a r ∧ b = g a.
Proof. destruct x; simpl; intros [= <- <-] || intros [=]; eauto. Qed.

Lemma hex4_Some s u r :
  hex4 s = Some (u, r) → ∃ a b c d, s = a :: b :: c :: d :: r.
Proof.
  destruct s as [|a [|b [|c [|d s]]]]; simpl; try done.
  destruct (hexval a), (hexval b), (hexval c), (hexval d); try done.
  intros [= <- <-]. eauto 6.
Qed.

Lemma hex4_suffix s u r : hex4 s = Some (u, r) → r `suffix_of` s.
Proof.
  intros (a & b & c & d & ->)%hex4_Some. by exists [a; b; c; d].
Qed.

Lemma consumed_is_suffix s r : consumed s r → r `suffix_of` s.
Proof.
  intros (a & c & -> & _). exists (a ++ [c]). by rewrite <-app_assoc.
Qed.

(** One more character read after a scanned value. *)
Lemma consumed_then s r c r' :
  r `suffix_of` s → skip_ws r = c :: r' → py_isspace c = false →
  consumed s r'.
Proof.
  intros Hs Hr Hc. eapply consumed_suffix; [|by apply consumed_head].
  rewrite <-Hr. etrans; [apply skip_ws_suffix|done].
Qed.

Lemma scanstring_consumed f s v r :
  scanstring f s = Scanned v r → consumed s r.
Proof.
  revert s v r. induction f as [|f IH]; intros s v r; cbn [scanstring]; [done|].
  destruct s as [|c s]; [done|].
  destruct (c =? QUOTE) eqn:Eq.
  { intros [= <- <-]. apply N.eqb_eq in Eq as ->. by apply consumed_head. }
  assert (Hstep : ∀ g s', s' `suffix_of` c :: s →
            scan_map g (scanstring f s') = Scanned v r →
            consumed (c :: s) r).
  { intros g s' Hs (v' & H & _)%scan_map_Scanned. apply IH in H.
    by eapply consumed_suffix. }
  destruct (c =? BACKSLASH).
  - destruct s as [|e s]; [done|].
    assert (Hs : s `suffix_of` c :: e :: s) by (by exists [c; e]).
    destruct (e =? 117).
    + destruct (hex4 s) as [[u r2]|] eqn:H1; [|done].
      assert (Hr2 : r2 `suffix_of` c :: e :: s).
      { etrans; [|exact Hs]. by eapply hex4_suffix. }
      destruct (is_high_surrogate u && startswith [BACKSLASH; 117] r2);
        [|by apply Hstep].
      destruct (hex4 (drop 2 r2)) as [[u2 r3]|] eqn:H2; [|done].
      destruct (is_low_surrogate u2); [|by apply Hstep].
      apply Hstep. etrans; [by eapply hex4_suffix|].
      etrans; [apply suffix_drop|done].
    + destruct (backslash e); [by apply Hstep|done].
  - destruct (c <=? 31); [done|]. apply Hstep. by apply suffix_cons_r.
Qed.

Lemma span_digits_spec s ds r :
  span_digits s = (ds, r) →
  s = ds ++ r ∧ Forall (fun c => is_digit c = true) ds
  ∧ match r with c :: _ => is_digit c = false | [] => True end.
Proof.
  revert ds r. induction s as [|c s IH]; intros ds r; simpl.
  - by intros [= <- <-].
  - destruct (is_digit c) eqn:E.
    + destruct (span_digits s) as [ds' r'] eqn:Es. intros [= <- <-].
      destruct (IH _ _ eq_refl) as (-> & Hd & Hr). by repeat constructor.
    + intros [= <- <-]. by rewrite E.
Qed.

Lemma digit_not_space c : is_digit c = true → py_isspace c = false.
Proof.
  unfold is_digit, py_isspace. intros [H1 H2]%andb_true_iff.
  apply N.leb_le in H1, H2.
  repeat match goal with
         | |- context [?a <=? ?b] => destruct (N.leb_spec a b); try lia
         | |- context [?a =? ?b] => destruct (N.eqb_spec a b); try lia
         end; reflexivity.
Qed.

Lemma Forall_snoc {A} (P : A → Prop) (a : list A) (c : A) :
  Forall P (a ++ [c]) → P c.
Proof. intros [_ H]%Forall_app. by inversion H. Qed.

(** A non-empty run of visible characters in front of [r]. *)
Lemma consumed_run a r :
  a ≠ [] → Forall (fun c => py_isspace c = false) a → consumed (a ++ r) r.
Proof.
  intros Hne Ha. destruct a as [|c a _] using rev_ind; [done|].
  apply Forall_snoc in Ha. exists a, c. by rewrite <-app_assoc.
Qed.

Lemma digits_visible ds :
  Forall (fun c => is_digit c = true) ds →
  Forall (fun c => py_isspace c = false) ds.
Proof. intros H. eapply Forall_impl; [exact H|]. apply digit_not_space. Qed.

Lemma scan_int_spec s ds r :
  scan_int s = Some (ds, r) →
  s = ds ++ r ∧ ds ≠ [] ∧ Forall (fun c => is_digit c = true) ds.
Proof.
  unfold scan_int. destruct s as [|c s]; [done|].
  destruct (c =? ZERO) eqn:E0.
  - intros [= <- <-]. apply N.eqb_eq in E0 as ->. by repeat constructor.
  - destruct (is_digit c) eqn:Ed; [|done].
    destruct (span_digits s) as [ds' r'] eqn:Es. intros [= <- <-].
    destruct (span_digits_spec _ _ _ Es) as (-> & Hd & _).
    by repeat constructor.
Qed.

Lemma scan_frac_spec s ds r :
  scan_frac s = (ds, r) →
  s = ds ++ r ∧ (ds = [] ∨ ∃ ds' c, ds = ds' ++ [c] ∧ is_digit c = true).
Proof.
  unfold scan_frac. destruct s as [|d [|c s]]; try by (intros [= <- <-]; auto).
  destruct ((d =? DOT) && is_digit c) eqn:E; [|by (intros [= <- <-]; auto)].
  apply andb_true_iff in E as [_ Ec].
  destruct (span_digits s) as [ds' r'] eqn:Es. intros [= <- <-].
  destruct (span_digits_spec _ _ _ Es) as (-> & Hd & _). split; [done|right].
  destruct ds' as [|x ds' _] using rev_ind.
  - by exists [d], c.
  - apply Forall_snoc in Hd. by exists (d :: c :: ds'), x.
Qed.

Lemma span_digits_last s ds r :
  span_digits s = (ds, r) → ds ≠ [] →
  s = ds ++ r ∧ ∃ ds' c, ds = ds' ++ [c] ∧ is_digit c = true.
Proof.
  intros (-> & Hd & _)%span_digits_spec Hne. split; [done|].
  destruct ds as [|x ds _] using rev_ind; [done|].
  apply Forall_snoc in Hd. eauto.
Qed.

Lemma scan_exp_spec s ds r :
  scan_exp s = (ds, r) →
  s = ds ++ r ∧ (ds = [] ∨ ∃ ds' c, ds = ds' ++ [c] ∧ is_digit c = true).
Proof.
  unfold scan_exp. destruct s as [|e s]; [by (intros [= <- <-]; auto)|].
  destruct ((e =? 101) || (e =? 69)); [|by (intros [= <- <-]; auto)].
  destruct s as [|sg s]; [by (intros [= <- <-]; auto)|].
  destruct ((sg =? MINUS) || (sg =? PLUS)).
  - destruct (span_digits s) as [[|x ds'] r'] eqn:Es;
      [by (intros [= <- <-]; auto)|].
    intros [= <- <-].
    destruct (span_digits_last _ _ _ Es) as (-> & ds2 & c & E & Hc); [done|].
    split; [done|right]. exists (e :: sg :: ds2), c. by rewrite E.
  - destruct (span_digits (sg :: s)) as [[|x ds'] r'] eqn:Es;
      [by (intros [= <- <-]; auto)|].
    intros [= <- <-].
    destruct (span_digits_last _ _ _ Es) as (E' & ds2 & c & E & Hc); [done|].
    rewrite E'. split; [done|right]. exists (e :: ds2), c. by rewrite E.
Qed.

Lemma consumed_extend s r x r' :
  consumed s r → r = x ++ r' →
  (x = [] ∨ ∃ x' c, x = x' ++ [c] ∧ is_digit c = true) →
  consumed s r'.
Proof.
  intros Hs -> [->|(x' & c & -> & Hc)]; [done|].
  eapply consumed_suffix; [by apply consumed_is_suffix|].
  exists x', c. rewrite <-app_assoc. split; [done|by apply digit_not_space].
Qed.

Lemma number_body_consumed neg s v r :
  number_body neg s = Some (v, r) → consumed s r.
Proof.
  unfold number_body.
  destruct (scan_int s) as [[ds r1]|] eqn:Ei; [|done].
  destruct (scan_frac r1) as [frac r2] eqn:Ef.
  destruct (scan_exp r2) as [exp r3] eqn:Ee.
  intros Hv. assert (r3 = r) as <- by (destruct frac, exp; by inversion Hv).
  clear Hv. apply scan_int_spec in Ei as (-> & Hne & Hd).
  apply scan_frac_spec in Ef as [Ef Hf]. apply scan_exp_spec in Ee as [Ee He].
  eapply consumed_extend; [|exact Ee|exact He].
  eapply consumed_extend; [|exact Ef|exact Hf].
  apply consumed_run; [done|by apply digits_visible].
Qed.

Lemma match_number_consumed s v r :
  match_number s = Some (v, r) → consumed s r.
Proof.
  unfold match_number. destruct s as [|c s]; [done|].
  destruct (c =? MINUS); intros H%number_body_consumed; [|done].
  by apply consumed_step.
Qed.

Lemma keyword_consumed w v s v' r :
  keyword w v s = Some (v', r) →
  lit w ≠ [] → Forall (fun c => py_isspace c = false) (lit w) →
  consumed s r.
Proof.
  unfold keyword. destruct (startswith (lit w) s) eqn:E; [|done].
  intros [= <- <-] Hne Hw. rewrite (startswith_drop _ _ E) at 1.
  by apply consumed_run.
Qed.

Lemma scan_atom_consumed s v r : scan_atom s = Scanned v r → consumed s r.
Proof.
  unfold scan_atom.
  repeat match goal with
  | |- context [match keyword ?w ?x s with _ => _ end] =>
      let E := fresh "E" in
      destruct (keyword w x s) as [[? ?]|] eqn:E;
      [intros [= <- <-]; eapply keyword_consumed;
         [exact E|done|by repeat constructor]|]
  | |- context [match match_number s with _ => _ end] =>
      let E := fresh "E" in
      destruct (match_number s) as [[? ?]|] eqn:E;
      [intros [= <- <-]; by eapply match_number_consumed|]
  end.
  done.
Qed.

Lemma scan_consumed f :
  (∀ s v r, scan_once f s = Scanned v r → consumed s r)
  ∧ (∀ s v r, scan_members f s = Scanned v r → consumed s r)
  ∧ (∀ s v r, scan_elems f s = Scanned v r → consumed s r).
Proof.
  induction f as [|f (IHo & IHm & IHe)]; [done|].
  split_and!; intros s v r; cbn [scan_once scan_members scan_elems].
  - destruct s as [|c s]; [done|].
    destruct (c =? QUOTE).
    { intros (v' & H & _)%scan_map_Scanned.
      apply scanstring_consumed in H. by apply consumed_step. }
    destruct (c =? LBRACE) eqn:Eb.
    { destruct (skip_ws s) as [|c1 r1] eqn:Ew; [done|].
      assert (Hr1 : r1 `suffix_of` c :: s).
      { apply suffix_cons_r. etrans; [|apply skip_ws_suffix].
        rewrite Ew. by apply suffix_cons_r. }
      destruct (c1 =? RBRACE) eqn:E1.
      { intros [= <- <-]. apply N.eqb_eq in E1 as ->.
        eapply consumed_then; [by apply suffix_cons_r|exact Ew|done]. }
      destruct (c1 =? QUOTE); [|done].
      intros (v' & H & _)%scan_map_Scanned.
      by eapply consumed_suffix, IHm. }
    destruct (c =? LBRACKET).
    { destruct (skip_ws s) as [|c1 r1] eqn:Ew; [done|].
      destruct (c1 =? RBRACKET) eqn:E1.
      { intros [= <- <-]. apply N.eqb_eq in E1 as ->.
        eapply consumed_then; [by apply suffix_cons_r|exact Ew|done]. }
      intros (v' & H & _)%scan_map_Scanned.
      eapply consumed_suffix, IHe; [|exact H].
      rewrite <-Ew. apply suffix_cons_r, skip_ws_suffix. }
    apply scan_atom_consumed.
  - destruct (scanstring f s) as [key r1| |] eqn:Ek; [|done..].
    apply scanstring_consumed, consumed_is_suffix in Ek.
    destruct (skip_ws r1) as [|c r2] eqn:Ew1; [done|].
    destruct (c =? COLON); [|done].
    destruct (scan_once f (skip_ws r2)) as [value r3| |] eqn:Ev; [|done..].
    apply IHo, consumed_is_suffix in Ev.
    assert (Hr3 : r3 `suffix_of` s).
    { etrans; [exact Ev|]. etrans; [apply skip_ws_suffix|].
      etrans; [|exact Ek]. etrans; [|apply skip_ws_suffix].
      rewrite Ew1. by apply suffix_cons_r. }
    destruct (skip_ws r3) as [|c2 r4] eqn:Ew3; [done|].
    destruct (c2 =? RBRACE) eqn:E2.
    { intros [= <- <-]. apply N.eqb_eq in E2 as ->.
      by eapply consumed_then. }
    destruct (c2 =? COMMA); [|done].
    destruct (skip_ws r4) as [|c3 r5] eqn:Ew4; [done|].
    destruct (c3 =? QUOTE); [|done].
    intros (v' & H & _)%scan_map_Scanned.
    eapply consumed_suffix, IHm; [|exact H].
    etrans; [|exact Hr3]. etrans; [|apply skip_ws_suffix]. rewrite Ew3.
    apply suffix_cons_r. etrans; [|apply skip_ws_suffix]. rewrite Ew4.
    by apply suffix_cons_r.
  - destruct (scan_once f s) as [value r1| |] eqn:Ev; [|done..].
    apply IHo, consumed_is_suffix in Ev.
    destruct (skip_ws r1) as [|c r2] eqn:Ew; [done|].
    destruct (c =? RBRACKET) eqn:E1.
    { intros [= <- <-]. apply N.eqb_eq in E1 as ->.
      by eapply consumed_then. }
    destruct (c =? COMMA); [|done].
    intros (v' & H & _)%scan_map_Scanned.
    eapply consumed_suffix, IHe; [|exact H].
    etrans; [apply skip_ws_suffix|]. etrans; [|exact Ev].
    etrans; [|apply skip_ws_suffix]. rewrite Ew. by apply suffix_cons_r.
Qed.

(** ** The recursion bound of the model is never the reason of a rejection *)

Lemma scan_map_Exhausted {A B} (g : A → B) x :
  scan_map g x = Exhausted ↔ x = Exhausted.
Proof. by destruct x. Qed.

(** Case analysis along the code of a scanner: the test or the scanned
    sub-result the outcome depends on next. *)
Ltac scan_case :=
  match goal with
  | |- context [match ?x with _ => _ end] => destruct x eqn:?
  | H : context [match ?x with _ => _ end] |- _ => destruct x eqn:?
  end.

(** More fuel does not change an outcome other than [Exhausted]. *)
Lemma scanstring_fuel f f' s :
  (f ≤ f')%nat → scanstring f s ≠ Exhausted → scanstring f' s = scanstring f s.
Proof.
  revert f' s. induction f as [|f IH]; intros f' s Hle; [done|].
  destruct f' as [|f']; [lia|]. cbn [scanstring].
  assert (Hrec : ∀ (g : pystr → pystr) r,
            scan_map g (scanstring f r) ≠ Exhausted →
            scan_map g (scanstring f' r) = scan_map g (scanstring f r)).
  { intros g r Hne. rewrite IH; [done|lia|]. by rewrite scan_map_Exhausted in Hne. }
  intros Hne. repeat first [done | by apply Hrec | scan_case].
Qed.

Lemma scan_fuel f :
  (∀ f' s, (f ≤ f')%nat → scan_once f s ≠ Exhausted →
     scan_once f' s = scan_once f s)
  ∧ (∀ f' s, (f ≤ f')%nat → scan_members f s ≠ Exhausted →
     scan_members f' s = scan_members f s)
  ∧ (∀ f' s, (f ≤ f')%nat → scan_elems f s ≠ Exhausted →
     scan_elems f' s = scan_elems f s).
Proof.
  induction f as [|f (IHo & IHm & IHe)]; [done|].
  assert (Hm : ∀ f' B (g : _ → B) r, (f ≤ f')%nat →
            scan_map g (scan_members f r) ≠ Exhausted →
            scan_map g (scan_members f' r) = scan_map g (scan_members f r)).
  { intros f' B g r Hle Hne. rewrite IHm; [done..|].
    by rewrite scan_map_Exhausted in Hne. }
  assert (He : ∀ f' B (g : _ → B) r, (f ≤ f')%nat →
            scan_map g (scan_elems f r) ≠ Exhausted →
            scan_map g (scan_elems f' r) = scan_map g (scan_elems f r)).
  { intros f' B g r Hle Hne. rewrite IHe; [done..|].
    by rewrite scan_map_Exhausted in Hne. }
  assert (Hs : ∀ f' (g : pystr → json) r, (f ≤ f')%nat →
            scan_map g (scanstring f r) ≠ Exhausted →
            scan_map g (scanstring f' r) = scan_map g (scanstring f r)).
  { intros f' g r Hle Hne. rewrite (scanstring_fuel f f'); [done..|].
    by rewrite scan_map_Exhausted in Hne. }
  split_and!; intros f' s Hle; (destruct f' as [|f']; [lia|]);
    assert (Hle' : (f ≤ f')%nat) by lia;
    cbn [scan_once scan_members scan_elems]; intros Hne.
  - repeat first [done | by apply Hs | by apply Hm | by apply He | scan_case].
  - destruct (scanstring f s) as [key r| |] eqn:Ek; [| |done];
      (rewrite (scanstring_fuel f f'); [|done|by rewrite Ek]); rewrite Ek;
      [|done].
    destruct (skip_ws r) as [|c r1]; [done|]. destruct (c =? COLON); [|done].
    destruct (scan_once f (skip_ws r1)) as [value r2| |] eqn:Ev; [| |done];
      (rewrite (IHo f'); [|done|by rewrite Ev]); rewrite Ev; [|done].
    repeat first [done | by apply Hm | scan_case].
  - destruct (scan_once f s) as [value r| |] eqn:Ev; [| |done];
      (rewrite (IHo f'); [|done|by rewrite Ev]); rewrite Ev; [|done].
    repeat first [done | by apply He | scan_case].
Qed.

Lemma hex4_length s u r : hex4 s = Some (u, r) → length s = (length r + 4)%nat.
Proof. intros (a & b & c & d & ->)%hex4_Some. simpl. lia. Qed.

Lemma skip_ws_length s c r : skip_ws s = c :: r → (length r < length s)%nat.
Proof.
  intros H. pose proof (suffix_length _ _ (skip_ws_suffix s)) as Hl.
  rewrite H in Hl. simpl in Hl. lia.
Qed.

Lemma skip_ws_le s : (length (skip_ws s) ≤ length s)%nat.
Proof. apply suffix_length, skip_ws_suffix. Qed.

(** Turns what the case analysis recorded into facts about lengths. *)
Ltac lengths :=
  repeat match goal with
  | H : hex4 _ = Some _ |- _ => apply hex4_length in H
  | H : skip_ws _ = _ :: _ |- _ => apply skip_ws_length in H
  | H : scanstring _ _ = Scanned _ _ |- _ =>
      apply scanstring_consumed, consumed_length in H
  | H : scan_once ?f _ = Scanned _ _ |- _ =>
      apply (proj1 (scan_consumed f)), consumed_length in H
  | _ : context [length (skip_ws ?s)] |- _ =>
      lazymatch goal with
      | _ : (length (skip_ws s) ≤ length s)%nat |- _ => fail
      | _ => pose proof (skip_ws_le s)
      end
  | |- context [length (skip_ws ?s)] =>
      lazymatch goal with
      | _ : (length (skip_ws s) ≤ length s)%nat |- _ => fail
      | _ => pose proof (skip_ws_le s)
      end
  end;
  simpl in *; rewrite ?length_drop in *; lia.

Lemma scanstring_enough f s :
  (length s < f)%nat → scanstring f s ≠ Exhausted.
Proof.
  revert s. induction f as [|f IH]; intros s Hl; [lia|]. cbn [scanstring].
  assert (Hrec : ∀ (g : pystr → pystr) r, (length r < f)%nat →
            scan_map g (scanstring f r) ≠ Exhausted).
  { intros g r Hr. rewrite scan_map_Exhausted. by apply IH. }
  repeat first [done | apply Hrec; lengths | scan_case].
Qed.

Lemma scan_enough f :
  (∀ s, (2 * length s < f)%nat → scan_once f s ≠ Exhausted)
  ∧ (∀ s, (2 * length s + 1 < f)%nat → scan_members f s ≠ Exhausted)
  ∧ (∀ s, (2 * length s + 1 < f)%nat → scan_elems f s ≠ Exhausted).
Proof.
  induction f as [|f (IHo & IHm & IHe)]; [split_and!; intros; lia|].
  assert (Hm : ∀ B (g : _ → B) r, (2 * length r + 1 < f)%nat →
            scan_map g (scan_members f r) ≠ Exhausted).
  { intros B g r Hr. rewrite scan_map_Exhausted. by apply IHm. }
  assert (He : ∀ B (g : _ → B) r, (2 * length r + 1 < f)%nat →
            scan_map g (scan_elems f r) ≠ Exhausted).
  { intros B g r Hr. rewrite scan_map_Exhausted. by apply IHe. }
  assert (Hs : ∀ (g : pystr → json) r, (length r < f)%nat →
            scan_map g (scanstring f r) ≠ Exhausted).
  { intros g r Hr. rewrite scan_map_Exhausted. by apply scanstring_enough. }
  split_and!; intros s Hl; cbn [scan_once scan_members scan_elems].
  - destruct s as [|c s]; [done|]. simpl in Hl.
    destruct (c =? QUOTE); [apply Hs; lia|].
    destruct (c =? LBRACE).
    { destruct (skip_ws s) as [|c1 r1] eqn:Ew; [done|].
      repeat first [done | apply Hm; lengths | scan_case]. }
    destruct (c =? LBRACKET).
    { destruct (skip_ws s) as [|c1 r1] eqn:Ew; [done|].
      destruct (c1 =? RBRACKET); [done|]. apply He.
      pose proof (skip_ws_le s) as Hw. rewrite Ew in Hw. lia. }
    unfold scan_atom. repeat first [done | scan_case].
  - destruct (scanstring f s) as [key r| |] eqn:Ek; [|done|].
    2:{ exfalso. revert Ek. apply scanstring_enough. lia. }
    destruct (skip_ws r) as [|c r1] eqn:Ew; [done|].
    destruct (c =? COLON); [|done].
    destruct (scan_once f (skip_ws r1)) as [value r2| |] eqn:Ev; [|done|].
    2:{ exfalso. revert Ev. apply IHo. lengths. }
    repeat first [done | apply Hm; lengths | scan_case].
  - destruct (scan_once f s) as [value r| |] eqn:Ev; [|done|].
    2:{ exfalso. revert Ev. apply IHo. lia. }
    repeat first [done | apply He; lengths | scan_case].
Qed.

(** ** Whitespace after a document does not change what is scanned *)

Lemma json_ws_cases c : is_json_ws c = true → c = 32 ∨ c = 9 ∨ c = 10 ∨ c = 13.
Proof.
  unfold is_json_ws. rewrite !orb_true_iff, !N.eqb_eq. tauto.
Qed.

(** The first character of a blank text, if any, is one of the four. *)
Ltac head_of w Hw :=
  let c := fresh "c" in let Hc := fresh "Hc" in
  destruct w as [|c w];
  [|apply Forall_cons in Hw as [Hc Hw];
    apply json_ws_cases in Hc as [->|[->|[->| ->]]]].

Lemma skip_ws_blank w : blank w → skip_ws w = [].
Proof. induction 1 as [|c w' Hc _ IH]; simpl; [done|]. by rewrite Hc. Qed.

Lemma skip_ws_app w s :
  blank w →
  skip_ws (s ++ w) = match skip_ws s with [] => [] | c :: r => c :: r ++ w end.
Proof.
  intros Hw. induction s as [|c s IH]; simpl; [by rewrite skip_ws_blank|].
  by destruct (is_json_ws c).
Qed.

Lemma span_digits_app w s :
  blank w → span_digits (s ++ w) = let '(ds, r) := span_digits s in (ds, r ++ w).
Proof.
  intros Hw. induction s as [|c s IH]; simpl.
  - by head_of w Hw.
  - destruct (is_digit c); [|done]. rewrite IH. by destruct (span_digits s).
Qed.

Lemma hexval_blank c : is_json_ws c = true → hexval c = None.
Proof. by intros [->|[->|[->| ->]]]%json_ws_cases. Qed.

Lemma hex4_app w s : blank w → hex4 (s ++ w) = push_opt w (hex4 s).
Proof.
  unfold blank. intros Hw. destruct s as [|a [|b [|c [|d s]]]]; simpl;
    [..|by destruct (hexval a), (hexval b), (hexval c), (hexval d)].
  all: destruct w as [|x [|y [|z [|t w]]]]; simpl; try done.
  all: repeat match goal with
       | H : Forall _ (_ :: _) |- _ => apply Forall_cons in H as [? H]
       end.
  all: repeat case_match; try done.
  all: match goal with
       | H : is_json_ws ?x = true, H' : hexval ?x = Some _ |- _ =>
           by rewrite (hexval_blank x H) in H'
       end.
Qed.

Lemma startswith_app p w s :
  blank w → Forall (fun c => is_json_ws c = false) p →
  startswith p (s ++ w) = startswith p s.
Proof.
  intros Hw Hp. revert s. induction Hp as [|a p Ha _ IH]; intros s; [done|].
  destruct s as [|b s]; simpl; [|by rewrite IH].
  destruct Hw as [|x w Hx _]; [done|]. simpl.
  destruct (N.eqb_spec a x) as [->|]; [congruence|done].
Qed.

Lemma drop_startswith_app p w s :
  startswith p s = true →
  drop (length p) (s ++ w) = drop (length p) s ++ w.
Proof.
  intros [r ->]%startswith_spec.
  by rewrite <-app_assoc, !drop_app_length.
Qed.

(** A blank text holds no string up to a closing quote. *)
Lemma scanstring_blank f w v r : blank w → scanstring f w ≠ Scanned v r.
Proof.
  intros Hw. revert f v r. induction Hw as [|c w Hc _ IH]; intros [|f] v r; try done.
  cbn [scanstring].
  apply json_ws_cases in Hc as [->|[->|[->| ->]]]; try done.
  change (scan_map (cons 32) (scanstring f w) ≠ Scanned v r).
  intros (v' & H & _)%scan_map_Scanned. by apply IH in H.
Qed.

Lemma scan_map_push {A B} (g : A → B) w x v r :
  (∀ a r', x = Scanned a r' → ∃ r0, r' = r0 ++ w) →
  scan_map g x = Scanned v r → ∃ r0, r = r0 ++ w.
Proof. intros Hx (a & -> & _)%scan_map_Scanned. eauto. Qed.

Lemma scanstring_trunc w f s v r :
  blank w → scanstring f (s ++ w) = Scanned v r →
  ∃ r0, r = r0 ++ w ∧ scanstring f s = Scanned v r0.
Proof.
  intros Hw. revert s v r. induction f as [|f IH]; intros s v r; [done|].
  destruct s as [|c s]; [intros H; by apply scanstring_blank in H|].
  cbn [scanstring app].
  assert (Hrec : ∀ (g : pystr → pystr) x,
            scan_map g (scanstring f (x ++ w)) = Scanned v r →
            ∃ r0, r = r0 ++ w ∧ scan_map g (scanstring f x) = Scanned v r0).
  { intros g x (v' & H & ->)%scan_map_Scanned.
    apply IH in H as (r0 & -> & ->). eauto. }
  destruct (c =? QUOTE); [intros [= <- <-]; eauto|].
  destruct (c =? BACKSLASH).
  - destruct s as [|e s]; cbn [app].
    { destruct Hw as [|x w Hx _]; [done|].
      by apply json_ws_cases in Hx as [->|[->|[->| ->]]]. }
    destruct (e =? 117); [|destruct (backslash e); [apply Hrec|done]].
    rewrite hex4_app by done. destruct (hex4 s) as [[u r2]|]; [|done].
    cbn [push_opt]. rewrite startswith_app by (done || by repeat constructor).
    destruct (is_high_surrogate u && startswith [BACKSLASH; 117] r2) eqn:E;
      [|apply Hrec].
    apply andb_true_iff in E as [_ E].
    rewrite (drop_startswith_app [BACKSLASH; 117]) by done.
    rewrite hex4_app by done. cbn [length].
    destruct (hex4 (drop 2 r2)) as [[u2 r3]|]; [|done]. cbn [push_opt].
    destruct (is_low_surrogate u2); apply Hrec.
  - destruct (c <=? 31); [done|apply Hrec].
Qed.

Lemma scan_int_app w s : blank w → scan_int (s ++ w) = push_opt w (scan_int s).
Proof.
  intros Hw. destruct s as [|c s]; simpl.
  - by head_of w Hw.
  - destruct (c =? ZERO); [done|]. destruct (is_digit c); [|done].
    rewrite span_digits_app by done. by destruct (span_digits s).
Qed.

Lemma scan_frac_app w s :
  blank w → scan_frac (s ++ w) = let '(ds, r) := scan_frac s in (ds, r ++ w).
Proof.
  intros Hw. destruct s as [|d [|c s]]; simpl.
  - destruct w as [|x [|y w]]; try done.
    apply Forall_cons in Hw as [Hx _].
    by apply json_ws_cases in Hx as [->|[->|[->| ->]]].
  - destruct Hw as [|x w Hx _]; [done|]. simpl.
    apply json_ws_cases in Hx as [->|[->|[->| ->]]];
      by rewrite andb_false_r.
  - destruct ((d =? DOT) && is_digit c); [|done].
    rewrite span_digits_app by done. by destruct (span_digits s).
Qed.

Lemma scan_exp_app w s :
  blank w → scan_exp (s ++ w) = let '(ds, r) := scan_exp s in (ds, r ++ w).
Proof.
  intros Hw. destruct s as [|e s]; simpl.
  - by head_of w Hw.
  - destruct ((e =? 101) || (e =? 69)); [|done].
    destruct s as [|sg s]; cbn [app].
    + destruct Hw as [|x w Hx Hw]; [done|].
      assert (span_digits (x :: w) = ([], x :: w)) as Hsp.
      { by apply json_ws_cases in Hx as [->|[->|[->| ->]]]. }
      rewrite Hsp.
      by apply json_ws_cases in Hx as [->|[->|[->| ->]]].
    + change (sg :: s ++ w) with ((sg :: s) ++ w) at 2.
      rewrite (span_digits_app w s), (span_digits_app w (sg :: s)) by done.
      destruct ((sg =? MINUS) || (sg =? PLUS)).
      * by destruct (span_digits s) as [[|? ?] ?].
      * by destruct (span_digits (sg :: s)) as [[|? ?] ?].
Qed.

Lemma number_body_app neg w s :
  blank w → number_body neg (s ++ w) = push_opt w (number_body neg s).
Proof.
  intros Hw. unfold number_body. rewrite scan_int_app by done.
  destruct (scan_int s) as [[ds r1]|]; [|done].
  cbn [push_opt]. rewrite scan_frac_app by done.
  destruct (scan_frac r1) as [frac r2]. rewrite scan_exp_app by done.
  destruct (scan_exp r2) as [exp r3]. by destruct frac, exp.
Qed.

Lemma match_number_app w s :
  blank w → match_number (s ++ w) = push_opt w (match_number s).
Proof.
  intros Hw. unfold match_number. destruct s as [|c s]; cbn [app].
  - by head_of w Hw.
  - destruct (c =? MINUS); [by apply number_body_app|].
    by apply (number_body_app false w (c :: s)).
Qed.

Lemma keyword_app word v w s :
  blank w → Forall (fun c => is_json_ws c = false) (lit word) →
  keyword word v (s ++ w) = push_opt w (keyword word v s).
Proof.
  intros Hw Hword. unfold keyword. rewrite startswith_app by done.
  destruct (startswith (lit word) s) eqn:E; [|done].
  by rewrite drop_startswith_app.
Qed.

Lemma scan_atom_app w s : blank w → scan_atom (s ++ w) = push w (scan_atom s).
Proof.
  intros Hw. unfold scan_atom.
  rewrite !keyword_app, match_number_app by (done || by repeat constructor).
  repeat (case_match; simplify_eq/=; try done).
Qed.

(** A blank text holds no value. *)
Lemma scan_once_blank f w v r : blank w → scan_once f w ≠ Scanned v r.
Proof.
  intros Hw. destruct f as [|f]; [done|]. cbn [scan_once].
  destruct Hw as [|c w Hc _]; [done|].
  by apply json_ws_cases in Hc as [->|[->|[->| ->]]].
Qed.

Lemma scan_trunc w f :
  blank w →
  (∀ s v r, scan_once f (s ++ w) = Scanned v r →
     ∃ r0, r = r0 ++ w ∧ scan_once f s = Scanned v r0)
  ∧ (∀ s v r, scan_members f (s ++ w) = Scanned v r →
     ∃ r0, r = r0 ++ w ∧ scan_members f s = Scanned v r0)
  ∧ (∀ s v r, scan_elems f (s ++ w) = Scanned v r →
     ∃ r0, r = r0 ++ w ∧ scan_elems f s = Scanned v r0).
Proof.
  intros Hw. induction f as [|f (IHo & IHm & IHe)]; [done|].
  assert (Hm : ∀ B (g : _ → B) x v r,
            scan_map g (scan_members f (x ++ w)) = Scanned v r →
            ∃ r0, r = r0 ++ w ∧ scan_map g (scan_members f x) = Scanned v r0).
  { intros B g x v r (v' & H & ->)%scan_map_Scanned.
    apply IHm in H as (r0 & -> & ->). eauto. }
  assert (He : ∀ B (g : _ → B) x v r,
            scan_map g (scan_elems f (x ++ w)) = Scanned v r →
            ∃ r0, r = r0 ++ w ∧ scan_map g (scan_elems f x) = Scanned v r0).
  { intros B g x v r (v' & H & ->)%scan_map_Scanned.
    apply IHe in H as (r0 & -> & ->). eauto. }
  split_and!; intros s v r.
  - destruct s as [|c s]; [intros H; by apply scan_once_blank in H|].
    cbn [scan_once app].
    destruct (c =? QUOTE).
    { intros (v' & H & ->)%scan_map_Scanned.
      apply scanstring_trunc in H as (r0 & -> & ->); eauto. }
    destruct (c =? LBRACE).
    { rewrite skip_ws_app by done. destruct (skip_ws s) as [|c1 r1]; [done|].
      destruct (c1 =? RBRACE); [intros [= <- <-]; eauto|].
      destruct (c1 =? QUOTE); [apply Hm|done]. }
    destruct (c =? LBRACKET).
    { rewrite skip_ws_app by done. destruct (skip_ws s) as [|c1 r1]; [done|].
      destruct (c1 =? RBRACKET); [intros [= <- <-]; eauto|].
      apply (He _ _ (c1 :: r1)). }
    change (c :: s ++ w) with ((c :: s) ++ w). rewrite scan_atom_app by done.
    destruct (scan_atom (c :: s)); [|done..]. intros [= <- <-]. eauto.
  - cbn [scan_members].
    destruct (scanstring f (s ++ w)) as [key r1| |] eqn:Ek; [|done..].
    apply scanstring_trunc in Ek as (r1' & -> & ->); [|done].
    rewrite skip_ws_app by done. destruct (skip_ws r1') as [|c r2]; [done|].
    destruct (c =? COLON); [|done].
    rewrite skip_ws_app by done.
    destruct (skip_ws r2) as [|c' r2'].
    { intros H. exfalso. destruct (scan_once f []) eqn:E; try done.
      by apply (scan_once_blank f [] a rest) in E; [|constructor]. }
    change (c' :: r2' ++ w) with ((c' :: r2') ++ w).
    destruct (scan_once f ((c' :: r2') ++ w)) as [value r3| |] eqn:Ev; [|done..].
    apply IHo in Ev as (r3' & -> & ->).
    rewrite skip_ws_app by done. destruct (skip_ws r3') as [|c2 r4]; [done|].
    destruct (c2 =? RBRACE); [intros [= <- <-]; eauto|].
    destruct (c2 =? COMMA); [|done].
    rewrite skip_ws_app by done. destruct (skip_ws r4) as [|c3 r5]; [done|].
    destruct (c3 =? QUOTE); [apply Hm|done].
  - cbn [scan_elems].
    destruct (scan_once f (s ++ w)) as [value r1| |] eqn:Ev; [|done..].
    apply IHo in Ev as (r1' & -> & ->).
    rewrite skip_ws_app by done. destruct (skip_ws r1') as [|c r2]; [done|].
    destruct (c =? RBRACKET); [intros [= <- <-]; eauto|].
    destruct (c =? COMMA); [|done].
    rewrite skip_ws_app by done.
    destruct (skip_ws r2) as [|c' r2'].
    { intros (v' & H & _)%scan_map_Scanned. exfalso.
      destruct f as [|f']; [done|]. cbn [scan_elems] in H.
      destruct (scan_once f' []) eqn:E; try done.
      by apply (scan_once_blank f' [] a rest) in E; [|constructor]. }
    apply (He _ _ (c' :: r2')).
Qed.

(** ** What [json.loads] accepts *)

Lemma value_start_visible c : value_start c = true → py_isspace c = false.
Proof.
  unfold value_start. rewrite !orb_true_iff, !N.eqb_eq.
  intros [[[[[[[[[->| ->]| ->]| ->]| ->]| ->]| ->]| ->]| ->]|H]; try reflexivity.
  by apply digit_not_space.
Qed.

Lemma value_start_not_bom c : value_start c = true → c ≠ 65279.
Proof. by intros H ->. Qed.

Lemma keyword_head word v c s x a l :
  keyword word v (c :: s) = Some x → lit word = a :: l → c = a.
Proof.
  unfold keyword. destruct (startswith (lit word) (c :: s)) eqn:E; [|done].
  intros _ Hw. apply startswith_spec in E as [r E]. rewrite Hw in E.
  by injection E.
Qed.

Lemma scan_int_head c s x : scan_int (c :: s) = Some x → is_digit c = true.
Proof.
  unfold scan_int. destruct (c =? ZERO) eqn:E.
  - by apply N.eqb_eq in E as ->.
  - by destruct (is_digit c).
Qed.

Lemma number_body_head neg c s x :
  number_body neg (c :: s) = Some x → is_digit c = true.
Proof.
  unfold number_body. destruct (scan_int (c :: s)) eqn:E; [|done].
  intros _. by eapply scan_int_head.
Qed.

Lemma scan_atom_head c s v r :
  scan_atom (c :: s) = Scanned v r → value_start c = true.
Proof.
  unfold scan_atom.
  repeat match goal with
  | |- context [match keyword ?w ?x (c :: s) with _ => _ end] =>
      let E := fresh "E" in
      destruct (keyword w x (c :: s)) as [[? ?]|] eqn:E;
      [intros _; by rewrite (keyword_head _ _ _ _ _ _ _ E eq_refl)|]
  end.
  destruct (match_number (c :: s)) as [[? ?]|] eqn:En; [intros _|].
  - unfold match_number in En. unfold value_start.
    destruct (c =? MINUS) eqn:Em; [by rewrite !orb_true_r|].
    apply number_body_head in En as ->. by rewrite !orb_true_r.
  - repeat match goal with
    | |- context [match keyword ?w ?x (c :: s) with _ => _ end] =>
        let E := fresh "E" in
        destruct (keyword w x (c :: s)) as [[? ?]|] eqn:E;
        [intros _; by rewrite (keyword_head _ _ _ _ _ _ _ E eq_refl)|]
    end.
    done.
Qed.

Lemma scan_once_head f c s v r :
  scan_once f (c :: s) = Scanned v r → value_start c = true.
Proof.
  destruct f as [|f]; [done|]. cbn [scan_once].
  destruct (c =? QUOTE) eqn:E1; [by unfold value_start; rewrite E1|].
  destruct (c =? LBRACE) eqn:E2; [by unfold value_start; rewrite E1, E2|].
  destruct (c =? LBRACKET) eqn:E3;
    [by unfold value_start; rewrite E1, E2, E3|].
  apply scan_atom_head.
Qed.

Lemma skip_ws_split s : ∃ w, s = w ++ skip_ws s ∧ blank w.
Proof.
  induction s as [|c s (w & IH & Hw)]; simpl.
  { exists []. split; [done|constructor]. }
  destruct (is_json_ws c) eqn:E.
  - exists (c :: w). split; [by rewrite IH at 1|by constructor].
  - exists []. split; [done|constructor].
Qed.

Lemma skip_ws_nil_blank s : skip_ws s = [] → blank s.
Proof.
  destruct (skip_ws_split s) as (w & E & Hw). intros H.
  rewrite H, app_nil_r in E. by subst.
Qed.

Lemma skip_ws_visible c s : py_isspace c = false → skip_ws (c :: s) = c :: s.
Proof.
  intros H. simpl. destruct (is_json_ws c) eqn:E; [|done].
  apply json_ws_isspace in E. congruence.
Qed.

(** A text [json.loads] accepts is a core between two blank margins: the
    core starts with the first character of a value, ends with a visible
    character, and decodes to the same value. *)
Lemma json_loads_core J v :
  json_loads J = Some v →
  ∃ w1 body w2,
    J = w1 ++ body ++ w2 ∧ blank w1 ∧ blank w2
    ∧ (∃ c t, body = c :: t ∧ value_start c = true)
    ∧ (∃ a c, body = a ++ [c] ∧ py_isspace c = false)
    ∧ json_loads body = Some v.
Proof.
  unfold json_loads at 1. destruct (startswith [65279] J); [done|].
  destruct (scan_once (S (2 * length J)) (skip_ws J)) as [v' r| |] eqn:Es;
    [|done..].
  destruct (skip_ws r) eqn:Er; [|done]. intros [= ->].
  apply skip_ws_nil_blank in Er.
  destruct (skip_ws_split J) as (w1 & EJ & Hw1).
  pose proof (proj1 (scan_consumed _) _ _ _ Es) as (a & c & Ebody & Hc).
  set (body := a ++ [c]).
  assert (Ebody' : skip_ws J = body ++ r).
  { subst body. by rewrite <-app_assoc. }
  assert (Hhead : ∃ c0 t, body = c0 :: t ∧ value_start c0 = true).
  { destruct body as [|c0 t] eqn:Eb; [by destruct a|].
    exists c0, t. split; [done|]. rewrite Ebody' in Es.
    by eapply scan_once_head. }
  exists w1, body, r. split_and!; [by rewrite <-Ebody'|done..|by exists a, c|].
  rewrite Ebody' in Es.
  apply (proj1 (scan_trunc r _ Er)) in Es as (r0 & Er0 & Es).
  assert (r0 = []) as ->.
  { apply (f_equal length) in Er0. rewrite length_app in Er0.
    destruct r0; [done|simpl in Er0; lia]. }
  destruct Hhead as (c0 & t & Eb & Hc0). unfold json_loads.
  assert (startswith [65279] body = false) as ->.
  { rewrite Eb. cbn [startswith]. apply value_start_not_bom in Hc0.
    destruct (N.eqb_spec 65279 c0); [congruence|done]. }
  assert (skip_ws body = body) as ->.
  { rewrite Eb. by apply skip_ws_visible, value_start_visible. }
  assert (Hlen : (length body ≤ length J)%nat).
  { rewrite EJ, Ebody', !length_app. lia. }
  rewrite (proj1 (scan_fuel (S (2 * length body))) (S (2 * length J))) in Es;
    [|lia|apply scan_enough; lia].
  by rewrite Es.
Qed.

(** [json.loads] rejects a text for what the text is: the recursion bound
    of the model is not reached. *)
Lemma json_loads_decided s :
  scan_once (S (2 * length s)) (skip_ws s) ≠ Exhausted.
Proof. apply scan_enough. pose proof (skip_ws_le s). lia. Qed.

(** ** The sanitizer on trimmed and on fenced text *)

Lemma blank_spaces w : blank w → spaces w.
Proof. intros H. eapply Forall_impl; [exact H|]. apply json_ws_isspace. Qed.

Lemma lstrip_before_visible a c z :
  py_isspace c = false → lstrip (a ++ c :: z) = lstrip a ++ c :: z.
Proof.
  intros Hc. induction a as [|x a IH]; simpl; [by rewrite Hc|].
  by destruct (py_isspace x).
Qed.

Lemma lstrip_spaces w : spaces w → lstrip w = [].
Proof. induction 1 as [|c w Hc _ IH]; simpl; [done|]. by rewrite Hc. Qed.

Lemma rstrip_ends_visible s : ends_visible s → rstrip s = s.
Proof.
  intros (a & c & -> & Hc). unfold rstrip.
  rewrite rev_app_distr. simpl. rewrite Hc. simpl.
  by rewrite rev_involutive.
Qed.

Lemma rstrip_spec s : rstrip s = [] ∨ ends_visible (rstrip s).
Proof.
  unfold rstrip. destruct (lstrip (rev s)) as [|c t] eqn:E; [by left|right].
  exists (rev t), c. split; [done|].
  clear -E. induction (rev s) as [|x l IH]; simpl in E; [done|].
  destruct (py_isspace x) eqn:Ex; [auto|by injection E as -> _].
Qed.

Lemma lstrip_spec s :
  lstrip s = [] ∨ ∃ c t, lstrip s = c :: t ∧ py_isspace c = false.
Proof.
  induction s as [|x s IH]; simpl; [by left|].
  destruct (py_isspace x) eqn:Ex; [done|right; eauto].
Qed.

Lemma rstrip_prefix s : rstrip s `prefix_of` s.
Proof.
  unfold rstrip. destruct (lstrip_suffix (rev s)) as [k Hk].
  exists (rev k). rewrite <-rev_app_distr, <-Hk. by rewrite rev_involutive.
Qed.

(** Trailing whitespace goes, a visible first character stays. *)
Lemma rstrip_cons_visible c s :
  py_isspace c = false → ∃ t, rstrip (c :: s) = c :: t.
Proof.
  intros Hc. unfold rstrip. simpl.
  rewrite (lstrip_before_visible (rev s) c []) by done.
  rewrite rev_app_distr. simpl. eauto.
Qed.

(** The result of [strip()] has no whitespace at either end. *)
Lemma strip_trimmed s :
  strip s = [] ∨
  (∃ c t, strip s = c :: t ∧ py_isspace c = false) ∧ ends_visible (strip s).
Proof.
  unfold strip. destruct (lstrip_spec s) as [->|(c & t & -> & Hc)]; [by left|].
  right. destruct (rstrip_cons_visible c t Hc) as [t' E]. split; [eauto|].
  destruct (rstrip_spec (c :: t)) as [E'|]; [congruence|done].
Qed.

Lemma strip_fixed s :
  (∃ c t, s = c :: t ∧ py_isspace c = false) → ends_visible s → strip s = s.
Proof.
  intros (c & t & -> & Hc) He. unfold strip.
  rewrite lstrip_head by done. by apply rstrip_ends_visible.
Qed.

Lemma strip_idem s : strip (strip s) = strip s.
Proof.
  destruct (strip_trimmed s) as [->|[H1 H2]]; [done|]. by apply strip_fixed.
Qed.

(** [strip()] keeps a stretch of the text. *)
Lemma strip_infix s : ∃ a b, s = a ++ strip s ++ b.
Proof.
  unfold strip. destruct (lstrip_suffix s) as [a Ha].
  destruct (rstrip_prefix (lstrip s)) as [b Hb].
  exists a, b. by rewrite <-Hb.
Qed.

Lemma sub_close_unfold s :
  sub_close s =
  match close_at s with
  | Some rest => rest
  | None => match s with c :: r => c :: sub_close r | [] => [] end
  end.
Proof. by destruct s. Qed.

Lemma pystr_eqb_eq a b : pystr_eqb a b = true ↔ a = b.
Proof. unfold pystr_eqb. apply bool_decide_eq_true. Qed.

Lemma close_at_Some s rest :
  close_at s = Some rest →
  lstrip s = fence ∧ rest = [] ∨ lstrip s = fence ++ [NEWLINE] ∧ rest = [NEWLINE].
Proof.
  unfold close_at.
  destruct (pystr_eqb (lstrip s) fence) eqn:E1.
  { apply pystr_eqb_eq in E1. intros [= <-]. by left. }
  destruct (pystr_eqb (lstrip s) (fence ++ [NEWLINE])) eqn:E2; [|done].
  apply pystr_eqb_eq in E2. intros [= <-]. by right.
Qed.

Lemma last_fence p : last (p ++ fence) = Some BACKTICK.
Proof.
  unfold fence.
  change [BACKTICK; BACKTICK; BACKTICK] with ([BACKTICK; BACKTICK] ++ [BACKTICK]).
  by rewrite app_assoc, last_snoc.
Qed.

(** In front of a visible character the closing pattern does not match:
    the match would have to run over that character to reach the end. *)
Lemma close_at_before_visible a c y :
  py_isspace c = false → close_at (a ++ c :: y ++ fence) = None.
Proof.
  intros Hc. destruct (close_at _) as [rest|] eqn:E; [|done]. exfalso.
  apply close_at_Some in E. rewrite lstrip_before_visible in E by done.
  change (lstrip a ++ c :: y ++ fence)
    with (lstrip a ++ (c :: y) ++ fence) in E.
  rewrite app_assoc in E. destruct E as [[E _]|[E _]].
  - apply (f_equal length) in E. rewrite !length_app in E. simpl in E. lia.
  - apply (f_equal last) in E. by rewrite last_fence in E.
Qed.

(** The closing substitution removes the marker at the end of the text and
    the whitespace in front of it, up to the last visible character. *)
Lemma sub_close_fenced body y :
  body = [] ∨ ends_visible body → spaces y →
  sub_close (body ++ y ++ fence) = body.
Proof.
  intros Hb Hy. induction body as [|x b IH].
  - rewrite sub_close_unfold. unfold close_at. simpl.
    by rewrite lstrip_spaces_app.
  - destruct Hb as [|(a & c & E & Hc)]; [done|].
    rewrite sub_close_unfold. rewrite E at 1. rewrite <-app_assoc.
    cbn [app]. rewrite close_at_before_visible by done.
    cbn [app]. f_equal. apply IH.
    destruct a as [|x' a]; simplify_eq/=; [by left|right]. by exists a, c.
Qed.

Lemma sanitize_fenced_core x body y c t :
  spaces x → spaces y → body = c :: t → py_isspace c = false →
  ends_visible body →
  sanitize (fenced x body y) = body.
Proof.
  intros Hx Hy Eb Hc He. unfold sanitize, fenced.
  rewrite strip_fixed.
  - unfold sub_open.
    assert (startswith fence_json (fence_json ++ x ++ body ++ y ++ fence) = true)
      as -> by (apply startswith_spec; eauto).
    rewrite drop_app_length, lstrip_spaces_app by done.
    rewrite Eb. cbn [app]. rewrite lstrip_head by done.
    rewrite <-Eb. change (c :: t ++ y ++ fence) with ((c :: t) ++ y ++ fence).
    rewrite <-Eb. apply sub_close_fenced; [by right|done].
  - by exists BACKTICK, (tail fence_json ++ x ++ body ++ y ++ fence).
  - exists (fence_json ++ x ++ body ++ y ++ [BACKTICK; BACKTICK]), BACKTICK.
    split; [|done]. by rewrite <-!app_assoc.
Qed.

(** Sanitizing the fenced form of a text [json.loads] accepts gives a text
    that decodes to the same value. *)
Lemma sanitize_fenced_loads J v :
  json_loads J = Some v →
  json_loads (sanitize (fence_json ++ [NEWLINE] ++ J ++ [NEWLINE] ++ fence))
  = Some v.
Proof.
  intros (w1 & body & w2 & -> & Hw1 & Hw2 & (c & t & Eb & Hc) & He & Hv)
    %json_loads_core.
  assert (E : fence_json ++ [NEWLINE] ++ (w1 ++ body ++ w2) ++ [NEWLINE] ++ fence
              = fenced (NEWLINE :: w1) body (w2 ++ [NEWLINE])).
  { unfold fenced. by rewrite <-!app_assoc. }
  rewrite E, (sanitize_fenced_core _ _ _ c t); try done.
  - constructor; [done|by apply blank_spaces].
  - apply Forall_app. split; [by apply blank_spaces|by constructor].
  - by apply value_start_visible.
Qed.

(** ** Text without markers *)

Lemma no_fence_infix a t b : no_fence (a ++ t ++ b) → no_fence t.
Proof.
  intros H a' b' ->. apply (H (a ++ a') (b' ++ b)). by rewrite <-!app_assoc.
Qed.

Lemma no_fence_strip t : no_fence t → no_fence (strip t).
Proof.
  destruct (strip_infix t) as (a & b & E). intros H.
  rewrite E in H. by eapply no_fence_infix.
Qed.

Lemma sub_open_clean t : no_fence t → sub_open t = t.
Proof.
  intros H. unfold sub_open.
  destruct (startswith fence_json t) eqn:E; [|done].
  apply startswith_spec in E as [r ->]. exfalso.
  apply (H [] (lit "json" ++ r)). unfold fence_json. by rewrite <-app_assoc.
Qed.

Lemma close_at_clean t : no_fence t → close_at t = None.
Proof.
  intros H. destruct (close_at t) as [rest|] eqn:E; [|done]. exfalso.
  destruct (lstrip_suffix t) as [k Hk].
  apply close_at_Some in E as [[E _]|[E _]]; rewrite E in Hk.
  - apply (H k []). by rewrite app_nil_r.
  - by apply (H k [NEWLINE]).
Qed.

Lemma sub_close_clean t : no_fence t → sub_close t = t.
Proof.
  induction t as [|c t IH]; intros H;
    rewrite sub_close_unfold, close_at_clean by done; [done|].
  f_equal. apply IH. by apply (no_fence_infix [c] t []); rewrite app_nil_r.
Qed.

Lemma sanitize_clean t : no_fence t → sanitize t = strip t.
Proof.
  intros H%no_fence_strip. unfold sanitize.
  by rewrite sub_open_clean, sub_close_clean.
Qed.

(** ** What a computation leaves unchanged *)

Section keeps.
Context {S X : Type} (view : S → X).

Lemma keeps_ret {A} (a : A) : keeps view (ret a).
Proof. done. Qed.

Lemma keeps_raise {A} e : keeps view (raise (A:=A) e).
Proof. done. Qed.

Lemma keeps_get : keeps view get.
Proof. done. Qed.

Lemma keeps_modify f : (∀ s, view (f s) = view s) → keeps view (modify f).
Proof. intros H s. apply H. Qed.

Lemma keeps_bind {A B} (m : M S A) (k : A → M S B) :
  keeps view m → (∀ a, keeps view (k a)) → keeps view (bind m k).
Proof.
  intros Hm Hk s. unfold bind. specialize (Hm s).
  destruct (m s) as [[a|e] s']; [|done]. simpl in Hm. by rewrite Hk.
Qed.

Lemma keeps_try_except {A} caught (body : M S A) handler :
  keeps view body → (∀ e, keeps view (handler e)) →
  keeps view (try_except caught body handler).
Proof.
  intros Hb Hh s. unfold try_except. specialize (Hb s).
  destruct (body s) as [[a|e] s']; [done|]. simpl in Hb.
  destruct (caught e); [by rewrite Hh|done].
Qed.

Lemma keeps_try_finally {A} (body : M S A) final :
  keeps view body → keeps view final → keeps view (try_finally body final).
Proof.
  intros Hb Hf s. unfold try_finally. specialize (Hb s).
  destruct (body s) as [r s']. specialize (Hf s'). simpl in Hb.
  destruct (final s') as [[[]|e] s'']; simpl in *; congruence.
Qed.

Lemma keeps_for_each {A} (l : list A) body :
  (∀ x, keeps view (body x)) → keeps view (for_each l body).
Proof.
  intros Hb. induction l as [|x l IH]; simpl; [apply keeps_ret|].
  by apply keeps_bind.
Qed.

Lemma keeps_map_each {A B} (l : list A) (f : A → M S B) :
  (∀ x, keeps view (f x)) → keeps view (map_each l f).
Proof.
  intros Hf. induction l as [|x l IH]; simpl; [apply keeps_ret|].
  apply keeps_bind; [done|]. intros y. apply keeps_bind; [done|].
  intros ys. apply keeps_ret.
Qed.
End keeps.

Lemma keeps_logging r : keeps service_view (logging r).
Proof. done. Qed.

Lemma keeps_write_file p c : keeps service_view (write_file p c).
Proof. done. Qed.

Lemma keeps_os_unlink p : keeps service_view (os_unlink p).
Proof. intros w. unfold os_unlink. by destruct (fs w !! p). Qed.

Lemma keeps_os_path_exists p : keeps service_view (os_path_exists p).
Proof. done. Qed.

Lemma keeps_read_binary p : keeps service_view (read_binary p).
Proof. intros w. unfold read_binary. by destruct (fs w !! p) as [[]|]. Qed.

Lemma keeps_NamedTemporaryFile sfx : keeps service_view (NamedTemporaryFile sfx).
Proof. done. Qed.

Lemma keeps_file_read file : keeps service_view (file_read file).
Proof. unfold file_read. by destruct (read file). Qed.

Lemma keeps_response_text r : keeps service_view (response_text r).
Proof. by destruct r. Qed.

Create HintDb keeps discriminated.
#[export] Hint Resolve keeps_ret keeps_raise keeps_get keeps_logging keeps_write_file
  keeps_os_unlink keeps_os_path_exists keeps_read_binary
  keeps_NamedTemporaryFile keeps_file_read keeps_response_text : keeps.

(** Splits a goal [keeps view m] along the structure of [m]. *)
Ltac keeps_step :=
  first
    [ apply keeps_bind; [|intros ?]
    | apply keeps_try_except; [|intros ?]
    | apply keeps_try_finally
    | apply keeps_for_each; intros ?
    | apply keeps_map_each; intros ?
    | solve [auto with keeps]
    | match goal with
      | |- keeps _ (match ?x with _ => _ end) => destruct x
      | |- keeps _ (if ?x then _ else _) => destruct x
      end ].

Section pipeline_frame.
Context (image : Type) (Image_open : bytes → option image)
  (png_encode : image → option bytes)
  (convert_from_path : bytes → option (list image))
  (GEMINI_API_KEYS : list string) (entropy : nat → nat)
  (backend : nat → call → reply).

Lemma keeps_image_save img p :
  keeps service_view (image_save image png_encode img p).
Proof. unfold image_save. repeat keeps_step. Qed.

Lemma keeps_lift {A} (m : M World A) :
  keeps service_view m →
  keeps (fun fr => service_view (world fr)) (lift m).
Proof.
  intros H fr. unfold lift. specialize (H (world fr)).
  by destruct (m (world fr)).
Qed.

Lemma keeps_save_pages i pages :
  keeps (fun fr => service_view (world fr))
    (save_pages image png_encode i pages).
Proof.
  revert i. induction pages as [|img pages IH]; intros i; simpl;
    [apply keeps_ret|].
  repeat (apply keeps_bind; [|intros ?]); try done.
  apply keeps_lift, keeps_image_save.
Qed.

Lemma keeps_get_temp_pdf_path :
  keeps (fun fr => service_view (world fr)) get_temp_pdf_path.
Proof. intros fr. unfold get_temp_pdf_path. by destruct (temp_pdf_path fr). Qed.

Lemma keeps_in_frame {A} (body : M Frame A) :
  keeps (fun fr => service_view (world fr)) body →
  keeps service_view (in_frame body).
Proof.
  intros H w. unfold in_frame.
  specialize (H {| images := []; temp_pdf_path := None; world := w |}).
  by destruct (body _).
Qed.

Lemma keeps_convert_pdf_to_images pdf_file :
  keeps service_view
    (convert_pdf_to_images image png_encode convert_from_path pdf_file).
Proof.
  apply keeps_in_frame.
  repeat first
    [ apply keeps_get_temp_pdf_path
    | apply keeps_save_pages
    | apply keeps_lift; solve [auto with keeps]
    | done
    | keeps_step ].
Qed.

Lemma keeps_normalize file :
  keeps service_view
    (normalize image Image_open png_encode convert_from_path file).
Proof.
  unfold normalize. apply keeps_bind; [|intros ?].
  - destruct (bool_decide _); [apply keeps_convert_pdf_to_images|].
    apply keeps_bind; [auto with keeps|intros ?].
    destruct (Image_open _); [|apply keeps_raise].
    apply keeps_bind; [apply keeps_image_save|intros; apply keeps_ret].
  - unfold image_to_bytes. repeat keeps_step.
Qed.

Lemma keeps_extract_json r imgs :
  keeps service_view (extract_json r imgs).
Proof. unfold extract_json. repeat keeps_step. Qed.
End pipeline_frame.

Lemma has_fence_unfold t :
  has_fence t =
  startswith fence t || match t with _ :: r => has_fence r | [] => false end.
Proof. by destruct t. Qed.

Lemma has_fence_false t : has_fence t = false → no_fence t.
Proof.
  intros H a. revert t H. induction a as [|x a IH]; intros t H b ->.
  - rewrite has_fence_unfold in H. apply orb_false_iff in H as [H _].
    assert (startswith fence ([] ++ fence ++ b) = true) as E
      by (apply startswith_spec; eauto).
    congruence.
  - apply (IH (a ++ fence ++ b)) with (b := b); [|done].
    rewrite has_fence_unfold in H. by apply orb_false_iff in H as [_ H].
Qed.

(** The sanitizer is not idempotent on text that holds markers: a second
    opening marker is removed by a second pass only. *)
Example sanitize_twice_differs :
  sanitize (lit "```json```json{}") = lit "```json{}"
  ∧ sanitize (sanitize (lit "```json```json{}")) = lit "{}".
Proof. split; vm_compute; reflexivity. Qed.



(** ** Running [convert_pdf_to_images] *)

(** Runs the steps of a computation that do not depend on the files. *)
Ltac run :=
  repeat progress
    (unfold bind, ret, raise, get, try_except, try_finally, lift,
       in_frame, logging, write_file, file_read, response_text,
       genai_configure, NamedTemporaryFile, set_temp_pdf_path, images_append,
       image_save, modify, with_fs;
     cbn [Exception is_JSONDecodeError
          fs tmp_created api_key calls draws log world images temp_pdf_path
          fst snd]).

Lemma page_path_not_tmp j n sfx : page_path j ≠ tmp_name n sfx.
Proof. done. Qed.

Section normalizer.
Context (image : Type) (png_encode : image → option bytes)
  (convert_from_path : bytes → option (list image)).

(** The loop saves the pages in front of the first failure, appends
    their paths in order, and touches no file but the page files. *)
Lemma save_pages_spec i pages fr :
  ∃ fr',
    save_pages image png_encode i pages fr
    = (if bool_decide (saved_prefix image png_encode pages = length pages)
       then Return tt else Raise ImageError, fr')
    ∧ images fr' = images fr
        ++ map page_path (seq (i + 1) (saved_prefix image png_encode pages))
    ∧ temp_pdf_path fr' = temp_pdf_path fr
    ∧ ∀ p, (∀ j, p ≠ page_path j) → fs (world fr') !! p = fs (world fr) !! p.
Proof.
  revert i fr. induction pages as [|img pages IH]; intros i fr.
  { exists fr. cbn. by rewrite app_nil_r. }
  cbn [save_pages saved_prefix]. run.
  destruct (png_encode img) as [b|] eqn:E; run.
  - match goal with
    | |- context [save_pages _ _ _ _ ?fr1] =>
        destruct (IH (S i) fr1) as (fr' & Hrun & Himg & Htmp & Hfs)
    end.
    exists fr'. split_and!.
    + rewrite Hrun. f_equal. cbn [length].
      destruct (bool_decide (saved_prefix image png_encode pages = length pages)) eqn:Ed.
      * apply bool_decide_eq_true in Ed. by rewrite bool_decide_eq_true_2 by lia.
      * apply bool_decide_eq_false in Ed. by rewrite bool_decide_eq_false_2 by lia.
    + rewrite Himg. cbn [images seq map]. rewrite <-app_assoc.
      by replace (S i + 1)%nat with (S (i + 1)) by lia.
    + done.
    + intros p Hp. rewrite Hfs by done. cbn [world fs].
      by rewrite lookup_insert_ne.
  - rewrite bool_decide_eq_false_2 by (simpl; lia).
    eexists. split_and!; [done|cbn; by rewrite app_nil_r|done..].
Qed.
End normalizer.

Section normalizer_claims.
Context (image : Type) (png_encode : image → option bytes)
  (convert_from_path : bytes → option (list image)).


Lemma convert_pdf_to_images_run pdf_file content w :
  read pdf_file = Some content →
  (convert_pdf_to_images image png_encode convert_from_path pdf_file w).1
  = Return (map page_path
              (seq 1 (pages_saved image png_encode (convert_from_path content)))).
Proof.
  intros Hread. unfold convert_pdf_to_images. run. rewrite Hread. run.
  unfold get_temp_pdf_path at 1. run. unfold read_binary. run.
  rewrite lookup_insert_eq. run.
  destruct (convert_from_path content) as [pdf_images|]; cbn [pages_saved].
  - match goal with
    | |- context [save_pages _ _ _ _ ?fr1] =>
        destruct (save_pages_spec image png_encode 0 pdf_images fr1)
          as (fr' & Hrun & Himg & Htmp & Hfs)
    end.
    rewrite Hrun. cbn [images temp_pdf_path world fs] in Himg, Htmp, Hfs.
    specialize (Hfs (tmp_name (tmp_created w) ".pdf")
                  (fun j => not_eq_sym (page_path_not_tmp j _ _))).
    rewrite lookup_insert_eq in Hfs.
    destruct (bool_decide _);
      repeat progress
        (run; unfold get_temp_pdf_path, os_unlink;
         cbn [temp_pdf_path world fs]; rewrite ?Htmp, ?Hfs);
      by rewrite Himg.
  - unfold get_temp_pdf_path, os_unlink. cbn [temp_pdf_path world fs].
    by rewrite lookup_insert_eq.
Qed.

(** Without readable bytes the temporary path is never assigned, and
    the [finally] block raises on reading it. *)
Lemma convert_pdf_to_images_unreadable pdf_file w :
  read pdf_file = None →
  (convert_pdf_to_images image png_encode convert_from_path pdf_file w).1
  = Raise UnboundLocalError.
Proof.
  intros Hread. unfold convert_pdf_to_images. run. by rewrite Hread.
Qed.
End normalizer_claims.

(** ** Running [process_file] *)

Lemma bind_Return {S A B} (m : M S A) (k : A → M S B) s a s1 :
  m s = (Return a, s1) → bind m k s = k a s1.
Proof. intros H. unfold bind. by rewrite H. Qed.

Lemma bind_Return_inv {S A B} (m : M S A) (k : A → M S B) s b s2 :
  bind m k s = (Return b, s2) →
  ∃ a s1, m s = (Return a, s1) ∧ k a s1 = (Return b, s2).
Proof.
  unfold bind. destruct (m s) as [[a|e] s1]; [eauto|done].
Qed.

Lemma keeps_run {S A X} (view : S → X) (m : M S A) s r s' :
  keeps view m → m s = (r, s') → view s' = view s.
Proof. intros H E. specialize (H s). by rewrite E in H. Qed.

Lemma response_text_inv r w t w' :
  response_text r w = (Return t, w') → r = WithText t ∧ w' = w.
Proof. destruct r; [by intros [= -> ->]|done]. Qed.

Section orchestrator.
Context (image : Type) (Image_open : bytes → option image)
  (png_encode : image → option bytes)
  (convert_from_path : bytes → option (list image))
  (GEMINI_API_KEYS : list string) (entropy : nat → nat)
  (backend : nat → call → reply).

Lemma get_random_api_key_inv w key w' :
  get_random_api_key GEMINI_API_KEYS entropy w = (Return key, w') →
  GEMINI_API_KEYS !! drawn GEMINI_API_KEYS entropy w = Some key
  ∧ service_view w' = (api_key w, calls w, S (draws w)).
Proof.
  unfold get_random_api_key, random_choice, drawn.
  destruct (GEMINI_API_KEYS !! _) as [x|]; [|done]. by intros [= -> <-].
Qed.


Lemma generate_content_inv model parts p w r w' :
  generate_content backend model parts p w = (Return r, w') →
  backend (length (calls w))
    {| call_key := api_key w; call_model := model; call_parts := parts;
       call_prompt := p |} = Answer r
  ∧ service_view w'
    = (api_key w,
       calls w ++ [{| call_key := api_key w; call_model := model;
                      call_parts := parts; call_prompt := p |}],
       draws w).
Proof.
  unfold generate_content. destruct (backend _ _) as [r'|]; [|done].
  by intros [= -> <-].
Qed.


(** A run of [process_file] that returns drew one credential, once, and
    sent the three requests with it and with the same page images. *)
Lemma process_file_inv file w result w' :
  process_file image Image_open png_encode convert_from_path
    GEMINI_API_KEYS entropy backend file w = (Return result, w') →
  ∃ key parts,
    GEMINI_API_KEYS !! drawn GEMINI_API_KEYS entropy w = Some key
    ∧ draws w' = S (draws w)
    ∧ calls w' = calls w ++ [request (Some key) parts json_prompt;
                              request (Some key) parts summary_prompt;
                              request (Some key) parts csv_prompt].
Proof.
  unfold process_file. intros H.
  apply bind_Return_inv in H as ([images parts] & w1 & Hn & H).
  apply (keeps_run service_view) in Hn; [|apply keeps_normalize].
  apply bind_Return_inv in H as (key & w2 & Hk & H).
  apply get_random_api_key_inv in Hk as [Hkey Hk].
  apply bind_Return_inv in H as ([] & w3 & Hc & H).
  injection Hc as <-.
  apply bind_Return_inv in H as (r1 & w4 & Hg1 & H).
  apply generate_content_inv in Hg1 as [_ Hg1].
  apply bind_Return_inv in H as (extracted & w5 & He & H).
  apply (keeps_run service_view) in He; [|apply keeps_extract_json].
  apply bind_Return_inv in H as (r2 & w6 & Hg2 & H).
  apply generate_content_inv in Hg2 as [_ Hg2].
  apply bind_Return_inv in H as (t2 & w7 & Ht2 & H).
  apply response_text_inv in Ht2 as [_ ->].
  apply bind_Return_inv in H as (r3 & w8 & Hg3 & H).
  apply generate_content_inv in Hg3 as [_ Hg3].
  apply bind_Return_inv in H as (t3 & w9 & Ht3 & H).
  apply response_text_inv in Ht3 as [_ ->].
  injection H as _ <-.
  unfold service_view in *. cbn [api_key calls draws] in *.
  simplify_eq. exists key, parts. unfold drawn, request.
  repeat match goal with H : _ = _ |- _ => rewrite H end.
  split_and!; try done.
  - unfold drawn in Hkey.
    match goal with H : draws w1 = draws w |- _ => by rewrite H in Hkey end.
  - by rewrite <-!app_assoc.
Qed.
End orchestrator.

Section orchestrator_run.
Context (image : Type) (Image_open : bytes → option image)
  (png_encode : image → option bytes)
  (convert_from_path : bytes → option (list image))
  (GEMINI_API_KEYS : list string) (entropy : nat → nat)
  (backend : nat → call → reply).


End orchestrator_run.

(** On the upload that cannot be read the empty temporary file stays
    behind, next to the exception. *)
Example unreadable_upload_leaves_temp_file :
  (Demo.convert Demo.unreadable Demo.w0).1 = Raise UnboundLocalError
  ∧ fs (Demo.convert Demo.unreadable Demo.w0).2 !! tmp_name 0 ".pdf"
    = Some (Binary []).
Proof. split; vm_compute; reflexivity. Qed.

(** ** Files, runs and the shape of the sanitized text *)

Lemma string_length_app (s t : string) :
  String.length (s +:+ t) = (String.length s + String.length t)%nat.
Proof. induction s as [|a s IH]; simpl; [done|]. by rewrite IH. Qed.

Lemma string_app_inj_r (t s1 s2 : string) : s1 +:+ t = s2 +:+ t → s1 = s2.
Proof.
  revert s2. induction s1 as [|a s1 IH]; intros [|b s2] H.
  - done.
  - apply (f_equal String.length) in H.
    rewrite !string_length_app in H. simpl in H. lia.
  - apply (f_equal String.length) in H.
    rewrite !string_length_app in H. simpl in H. lia.
  - cbn [String.append] in H. injection H as -> H. f_equal. by apply IH.
Qed.

Lemma page_path_inj i j : page_path i = page_path j → i = j.
Proof.
  unfold page_path. intros H%(inj (String.app "page_")).
  by apply string_app_inj_r, (inj pretty) in H.
Qed.

Section normalizer_files.
Context (image : Type) (png_encode : image → option bytes)
  (convert_from_path : bytes → option (list image)).

(** The page files the loop writes hold the encodings of the pages, and
    every other file is left as it is. *)
Lemma save_pages_files i pages fr :
  let fr' := (save_pages image png_encode i pages fr).2 in
  let k := saved_prefix image png_encode pages in
  (∀ n img, (n < k)%nat → pages !! n = Some img →
     fs (world fr') !! page_path (i + 1 + n)
     = Binary <$> png_encode img)
  ∧ (∀ p, (∀ j, (i + 1 ≤ j ≤ i + k)%nat → p ≠ page_path j) →
       fs (world fr') !! p = fs (world fr) !! p).
Proof.
  revert i fr. induction pages as [|img pages IH]; intros i fr.
  { cbn. split; [intros; lia|done]. }
  cbn [save_pages saved_prefix]. run.
  destruct (png_encode img) as [b|] eqn:E; run.
  - match goal with
    | |- context [save_pages _ _ _ _ ?fr1] =>
        destruct (IH (S i) fr1) as [Hin Hout]
    end.
    cbn zeta in *. cbn [world fs] in Hout. split.
    + intros [|n] img' Hn Himg.
      * injection Himg as <-. rewrite Hout.
        -- replace (i + 1 + 0)%nat with (i + 1)%nat by lia.
           by rewrite lookup_insert_eq, E.
        -- intros j Hj Heq%page_path_inj. lia.
      * replace (i + 1 + S n)%nat with (S i + 1 + n)%nat by lia.
        apply Hin; [lia|done].
    + intros p Hp. rewrite Hout.
      * apply lookup_insert_ne. intros <-. by apply (Hp (i + 1)%nat); [lia|].
      * intros j Hj. apply Hp. lia.
  - cbn. split; [intros; lia|done].
Qed.

Lemma convert_pdf_to_images_files pdf_file content w r w' :
  read pdf_file = Some content →
  convert_pdf_to_images image png_encode convert_from_path pdf_file w
  = (r, w') →
  fs w' !! tmp_name (tmp_created w) ".pdf" = None
  ∧ (∀ n img,
       (n < pages_saved image png_encode (convert_from_path content))%nat →
       default [] (convert_from_path content) !! n = Some img →
       fs w' !! page_path (n + 1) = Binary <$> png_encode img)
  ∧ (∀ p, p ≠ tmp_name (tmp_created w) ".pdf" →
       (∀ j, (1 ≤ j ≤ pages_saved image png_encode
                         (convert_from_path content))%nat →
             p ≠ page_path j) →
       fs w' !! p = fs w !! p).
Proof.
  intros Hread. unfold convert_pdf_to_images. run. rewrite Hread. run.
  unfold get_temp_pdf_path at 1. run. unfold read_binary. run.
  rewrite lookup_insert_eq. run.
  destruct (convert_from_path content) as [pdf_images|];
    cbn [pages_saved default].
  - match goal with
    | |- context [save_pages _ _ _ _ ?fr1] =>
        destruct (save_pages_spec image png_encode 0 pdf_images fr1)
          as (fr' & Hrun & Himg & Htmp & Hfs);
        destruct (save_pages_files 0 pdf_images fr1) as [Hin Hout]
    end.
    rewrite Hrun in Hin, Hout |- *.
    cbn [images temp_pdf_path world fs snd] in Himg, Htmp, Hfs, Hin, Hout.
    specialize (Hfs (tmp_name (tmp_created w) ".pdf")
                  (fun j => not_eq_sym (page_path_not_tmp j _ _))).
    rewrite lookup_insert_eq in Hfs.
    destruct (bool_decide _);
      repeat progress
        (run; unfold get_temp_pdf_path, os_unlink;
         cbn [temp_pdf_path world fs]; rewrite ?Htmp, ?Hfs).
    all: intros [= <- <-]; cbn [fs]; split_and!.
    all: try apply lookup_delete_eq.
    all: try (intros n img Hn Himg';
              rewrite lookup_delete_ne by apply not_eq_sym, page_path_not_tmp;
              replace (n + 1)%nat with (0 + 1 + n)%nat by lia;
              by apply (Hin n img)).
    all: intros p Hp Hj; rewrite lookup_delete_ne by done;
         rewrite Hout by (intros j ?; apply Hj; lia);
         by rewrite !lookup_insert_ne.
  - unfold get_temp_pdf_path, os_unlink. cbn [temp_pdf_path world fs].
    rewrite lookup_insert_eq. run. intros [= <- <-]. cbn [fs]. split_and!.
    + apply lookup_delete_eq.
    + intros; lia.
    + intros p Hp _. rewrite lookup_delete_ne by done.
      by rewrite !lookup_insert_ne.
Qed.
End normalizer_files.

(** Reading back page files that hold the given bytes. *)
Lemma read_parts paths datas w :
  Forall2 (fun p d => fs w !! p = Some (Binary d)) paths datas →
  map_each paths (fun path =>
    d <- image_to_bytes path ;; ret {| mime_type := "image/png"; data := d |}) w
  = (Return (map png_part datas), w).
Proof.
  induction 1 as [|p d paths datas Hp _ IH]; [done|].
  cbn [map_each map]. unfold bind at 1 2, image_to_bytes at 1, read_binary at 1.
  rewrite Hp. unfold ret at 1. unfold bind at 1. rewrite IH. done.
Qed.

Section normalize_pdf.
Context (image : Type) (Image_open : bytes → option image)
  (png_encode : image → option bytes)
  (convert_from_path : bytes → option (list image)).

Lemma saved_prefix_encoded pdf_images encodings :
  Forall2 (fun img b => png_encode img = Some b) pdf_images encodings →
  saved_prefix image png_encode pdf_images = length pdf_images.
Proof. induction 1 as [|img b l bs Hb _ IH]; simpl; [done|]. by rewrite Hb, IH. Qed.

Lemma normalize_pdf_pages file content pdf_images encodings w :
  type file = "application/pdf" →
  read file = Some content →
  convert_from_path content = Some pdf_images →
  Forall2 (fun img b => png_encode img = Some b) pdf_images encodings →
  (normalize image Image_open png_encode convert_from_path file w).1
  = Return (map page_path (seq 1 (length pdf_images)),
            map png_part encodings).
Proof.
  intros Htype Hread Hconv Henc. unfold normalize.
  rewrite bool_decide_eq_true_2 by done.
  destruct (convert_pdf_to_images image png_encode convert_from_path file w)
    as [r w1] eqn:Erun.
  pose proof (convert_pdf_to_images_run image png_encode convert_from_path
                file content w Hread) as Hr.
  pose proof (convert_pdf_to_images_files image png_encode convert_from_path
                file content w r w1 Hread Erun) as (_ & Hfiles & _).
  rewrite Erun in Hr. cbn [fst] in Hr. subst r.
  rewrite Hconv in Erun, Hfiles. cbn [pages_saved default] in Erun, Hfiles.
  rewrite (saved_prefix_encoded _ _ Henc) in Erun, Hfiles.
  rewrite (bind_Return _ _ _ _ _ Erun).
  unfold bind at 1.
  rewrite (read_parts _ encodings); [done|].
  clear Erun Hconv. revert Hfiles. generalize (fs w1). intros m Hfiles.
  assert (Hgen : ∀ i,
    (∀ n img, (n < length pdf_images)%nat → pdf_images !! n = Some img →
       m !! page_path (i + n + 1) = Binary <$> png_encode img) →
    Forall2 (fun p d => m !! p = Some (Binary d))
      (map page_path (seq (i + 1) (length pdf_images))) encodings).
  { clear Hfiles. induction Henc as [|img b l bs Hb Hl IH]; intros i Hf;
      [constructor|].
    cbn [length seq map]. constructor.
    - specialize (Hf 0%nat img). rewrite Hb in Hf.
      replace (i + 0 + 1)%nat with (i + 1)%nat in Hf by lia.
      apply Hf; [simpl; lia|done].
    - replace (S (i + 1)) with (S i + 1)%nat by lia. apply IH.
      intros n img' Hn Himg'.
      replace (S i + n + 1)%nat with (i + S n + 1)%nat by lia.
      apply Hf; [simpl; lia|done]. }
  apply (Hgen 0%nat). intros n img Hn Himg. by apply Hfiles.
Qed.

Lemma normalize_pdf_rejected file content w :
  type file = "application/pdf" →
  read file = Some content →
  convert_from_path content = None →
  (normalize image Image_open png_encode convert_from_path file w).1
  = Return ([], []).
Proof.
  intros Htype Hread Hconv. unfold normalize.
  rewrite bool_decide_eq_true_2 by done.
  destruct (convert_pdf_to_images image png_encode convert_from_path file w)
    as [r w1] eqn:Erun.
  pose proof (convert_pdf_to_images_run image png_encode convert_from_path
                file content w Hread) as Hr.
  rewrite Erun, Hconv in Hr. cbn in Hr. subst r.
  by rewrite (bind_Return _ _ _ _ _ Erun).
Qed.
End normalize_pdf.

Lemma bind_Raise {S A B} (m : M S A) (k : A → M S B) s e s1 :
  m s = (Raise e, s1) → bind m k s = (Raise e, s1).
Proof. intros H. unfold bind. by rewrite H. Qed.




(** The JSON step on a response without text: [ValueError] is not what
    the handler catches. *)
Lemma extract_json_no_text images w :
  extract_json WithoutText images w = (Raise ValueError, w).
Proof. done. Qed.


Section orchestrator_paths.
Context (image : Type) (Image_open : bytes → option image)
  (png_encode : image → option bytes)
  (convert_from_path : bytes → option (list image))
  (GEMINI_API_KEYS : list string) (entropy : nat → nat)
  (backend : nat → call → reply).

(** One request that the backend answers. *)
Lemma generate_content_answer parts p w key r :
  api_key w = Some key →
  backend (length (calls w)) (request (Some key) parts p) = Answer r →
  ∃ w', generate_content backend create_gemini_model parts p w = (Return r, w')
        ∧ api_key w' = Some key
        ∧ calls w' = calls w ++ [request (Some key) parts p]
        ∧ draws w' = draws w ∧ fs w' = fs w.
Proof.
  intros Hk Hb. unfold generate_content, request in *. eexists.
  cbn zeta. rewrite Hk, Hb.
  split; [reflexivity|]. by cbn [api_key calls draws fs].
Qed.

(** One request that the backend fails. *)
Lemma generate_content_failure parts p w key :
  api_key w = Some key →
  backend (length (calls w)) (request (Some key) parts p) = Failure →
  ∃ w', generate_content backend create_gemini_model parts p w
        = (Raise BackendError, w')
        ∧ calls w' = calls w ++ [request (Some key) parts p]
        ∧ draws w' = draws w ∧ fs w' = fs w.
Proof.
  intros Hk Hb. unfold generate_content, request in *. eexists.
  cbn zeta. rewrite Hk, Hb.
  split; [reflexivity|]. by cbn [api_key calls draws fs].
Qed.

(** [process_file] up to the first request. *)
Lemma process_file_start file w images parts w1 key :
  normalize image Image_open png_encode convert_from_path file w
  = (Return (images, parts), w1) →
  GEMINI_API_KEYS !! drawn GEMINI_API_KEYS entropy w = Some key →
  ∃ w3,
    process_file image Image_open png_encode convert_from_path
      GEMINI_API_KEYS entropy backend file w
    = (json_response <-
         generate_content backend create_gemini_model parts json_prompt ;;
       extracted_data <- extract_json json_response images ;;
       summary_response <-
         generate_content backend create_gemini_model parts summary_prompt ;;
       summary_text <- response_text summary_response ;;
       csv_response <-
         generate_content backend create_gemini_model parts csv_prompt ;;
       csv_text <- response_text csv_response ;;
       ret (extracted_data, summary_text, csv_text)) w3
    ∧ api_key w3 = Some key ∧ fs w3 = fs w1 ∧ calls w3 = calls w
    ∧ draws w3 = S (draws w).
Proof.
  intros Hn Hkey. unfold process_file.
  rewrite (bind_Return _ _ _ _ _ Hn). cbn beta iota zeta.
  apply (keeps_run service_view) in Hn; [|apply keeps_normalize].
  injection Hn as Ha1 Hc1 Hd1.
  unfold bind at 1, get_random_api_key at 1, random_choice at 1.
  unfold drawn in Hkey. rewrite <- Hd1 in Hkey. eexists. rewrite Hkey.
  unfold bind at 1, genai_configure at 1, modify at 1. cbn beta iota zeta.
  split; [reflexivity|]. cbn [fs calls draws api_key]. by rewrite Hc1, Hd1.
Qed.

(** A document that cannot be normalized: nothing is drawn and nothing is
    sent. *)
Lemma process_file_normalize_raises file w e w1 :
  normalize image Image_open png_encode convert_from_path file w
  = (Raise e, w1) →
  process_file image Image_open png_encode convert_from_path
    GEMINI_API_KEYS entropy backend file w = (Raise e, w1)
  ∧ calls w1 = calls w ∧ draws w1 = draws w.
Proof.
  intros Hn. split.
  - unfold process_file. by apply bind_Raise.
  - apply (keeps_run service_view) in Hn; [|apply keeps_normalize].
    by injection Hn as _ -> ->.
Qed.


(** The run in which the backend fails the first request. *)
Lemma process_file_backend_failure file w images parts w1 key :
  normalize image Image_open png_encode convert_from_path file w
  = (Return (images, parts), w1) →
  GEMINI_API_KEYS !! drawn GEMINI_API_KEYS entropy w = Some key →
  backend (length (calls w)) (request (Some key) parts json_prompt)
  = Failure →
  ∃ w',
    process_file image Image_open png_encode convert_from_path
      GEMINI_API_KEYS entropy backend file w
    = (Raise BackendError, w')
    ∧ fs w' = fs w1
    ∧ calls w' = calls w ++ [request (Some key) parts json_prompt]
    ∧ draws w' = S (draws w).
Proof.
  intros Hn Hkey Hj.
  destruct (process_file_start file w images parts w1 key Hn Hkey)
    as (w3 & -> & Ha3 & Hf3 & Hc3 & Hd3).
  destruct (generate_content_failure parts json_prompt w3 key)
    as (w4 & E4 & Hc4 & Hd4 & Hf4); [done|by rewrite Hc3|].
  rewrite (bind_Raise _ _ _ _ _ E4). exists w4.
  by rewrite Hf4, Hc4, Hd4, Hf3, Hc3, Hd3.
Qed.

(** The run in which the first response carries no text. *)
Lemma process_file_no_text file w images parts w1 key :
  normalize image Image_open png_encode convert_from_path file w
  = (Return (images, parts), w1) →
  GEMINI_API_KEYS !! drawn GEMINI_API_KEYS entropy w = Some key →
  backend (length (calls w)) (request (Some key) parts json_prompt)
  = Answer WithoutText →
  ∃ w',
    process_file image Image_open png_encode convert_from_path
      GEMINI_API_KEYS entropy backend file w
    = (Raise ValueError, w')
    ∧ fs w' = fs w1
    ∧ calls w' = calls w ++ [request (Some key) parts json_prompt].
Proof.
  intros Hn Hkey Hj.
  destruct (process_file_start file w images parts w1 key Hn Hkey)
    as (w3 & -> & Ha3 & Hf3 & Hc3 & Hd3).
  destruct (generate_content_answer parts json_prompt w3 key WithoutText)
    as (w4 & E4 & Ha4 & Hc4 & Hd4 & Hf4); [done|by rewrite Hc3|].
  rewrite (bind_Return _ _ _ _ _ E4).
  rewrite (bind_Raise _ _ _ _ _ (extract_json_no_text images w4)).
  exists w4. by rewrite Hf4, Hc4, Hf3, Hc3.
Qed.

End orchestrator_paths.

Section credentials.
Context (GEMINI_API_KEYS : list string) (entropy : nat → nat).

Lemma get_random_api_key_member w :
  GEMINI_API_KEYS ≠ [] →
  ∃ key w',
    get_random_api_key GEMINI_API_KEYS entropy w = (Return key, w')
    ∧ key ∈ GEMINI_API_KEYS
    ∧ draws w' = S (draws w) ∧ calls w' = calls w ∧ fs w' = fs w.
Proof.
  intros Hne. unfold get_random_api_key, random_choice.
  destruct (lookup_lt_is_Some_2 GEMINI_API_KEYS
              (entropy (draws w) `mod` length GEMINI_API_KEYS)%nat)
    as [key Hkey].
  { apply Nat.mod_upper_bound. by destruct GEMINI_API_KEYS. }
  eexists key, _. rewrite Hkey. split; [reflexivity|].
  split; [by eapply list_elem_of_lookup_2|done].
Qed.
End credentials.

(** ** The shape of what the sanitizer returns *)

Lemma ends_visible_last s : ends_visible s ↔ ∃ c, last s = Some c ∧ py_isspace c = false.
Proof.
  split.
  - intros (a & c & -> & Hc). exists c. by rewrite last_snoc.
  - intros (c & Hl & Hc). apply last_Some in Hl as [a ->]. by exists a, c.
Qed.

Lemma ends_visible_suffix k s : s ≠ [] → ends_visible (k ++ s) → ends_visible s.
Proof.
  intros Hs. rewrite !ends_visible_last. intros (c & Hl & Hc). exists c.
  split; [|done]. destruct s as [|x s]; [done|].
  by rewrite last_app_cons in Hl.
Qed.

Lemma ends_visible_cons c s : ends_visible s → ends_visible (c :: s).
Proof. intros (a & x & -> & Hx). by exists (c :: a), x. Qed.

(** The closing pattern on text without whitespace at its end: the match
    leaves nothing behind it. *)
Lemma close_at_trimmed s rest :
  s = [] ∨ ends_visible s → close_at s = Some rest → lstrip s = fence ∧ rest = [].
Proof.
  intros Hs [H|[E _]]%close_at_Some; [done|exfalso].
  destruct (lstrip_suffix s) as [k Hk]. rewrite E in Hk.
  destruct Hs as [->|He]; [by destruct k|].
  rewrite Hk, app_assoc in He. apply ends_visible_last in He as (c & Hl & Hc).
  rewrite last_snoc in Hl. by injection Hl as <-.
Qed.

Lemma sub_close_trimmed s :
  s = [] ∨ ends_visible s →
  sub_close s `prefix_of` s ∧ (sub_close s = [] ∨ ends_visible (sub_close s)).
Proof.
  induction s as [|c r IH]; intros Hs; rewrite sub_close_unfold.
  - destruct (close_at []) as [rest|] eqn:E; [|by split; [|left]].
    apply close_at_trimmed in E as [_ ->]; [|by left]. by split; [|left].
  - destruct (close_at (c :: r)) as [rest|] eqn:E.
    { apply close_at_trimmed in E as [_ ->]; [|done].
      split; [apply prefix_nil|by left]. }
    destruct Hs as [|Hs]; [done|].
    assert (Hr : r = [] ∨ ends_visible r).
    { destruct r as [|x r]; [by left|right].
      by apply (ends_visible_suffix [c]). }
    destruct (IH Hr) as [Hp Hv]. split; [by apply prefix_cons|].
    right. destruct Hv as [Hv|Hv]; [|by apply ends_visible_cons].
    rewrite Hv. exists [], c. split; [done|].
    destruct r as [|x r].
    { destruct Hs as (a & y & Ha & Hy). destruct a as [|? [|? ?]]; by simplify_eq/=. }
    rewrite sub_close_unfold in Hv.
    destruct (close_at (x :: r)) as [rest|] eqn:Er; [|done].
    apply close_at_trimmed in Er as [Er _]; [|done].
    destruct (py_isspace c) eqn:Ec; [exfalso|done].
    unfold close_at in E. cbn [lstrip] in E. rewrite Ec in E.
    cbn [lstrip] in Er. rewrite Er in E. unfold pystr_eqb in E.
    by rewrite bool_decide_eq_true_2 in E.
Qed.

Lemma sub_open_trimmed s :
  s = [] ∨ ends_visible s →
  sub_open s `suffix_of` s
  ∧ (sub_open s = []
     ∨ (∃ c t, sub_open s = c :: t ∧ py_isspace c = false)
       ∧ ends_visible (sub_open s))
  ∨ sub_open s = s.
Proof.
  intros Hs. unfold sub_open.
  destruct (startswith fence_json s) eqn:E; [left|by right].
  assert (Hsuf : lstrip (drop (length fence_json) s) `suffix_of` s).
  { etrans; [apply lstrip_suffix|apply suffix_drop]. }
  split; [done|].
  destruct (lstrip_spec (drop (length fence_json) s)) as [->|Hh]; [by left|].
  right. split; [done|]. destruct Hh as (c & t & Ec & _).
  destruct Hs as [->|Hs]; [done|]. destruct Hsuf as [k Hk].
  rewrite Hk in Hs. apply ends_visible_suffix in Hs; [done|by rewrite Ec].
Qed.

(** What [sanitize] returns is empty or has a visible character at both
    ends, and it is a stretch of the text. *)
Lemma sanitize_shape t :
  (sanitize t = []
   ∨ (∃ c r, sanitize t = c :: r ∧ py_isspace c = false)
     ∧ ends_visible (sanitize t))
  ∧ ∃ a b, t = a ++ sanitize t ++ b.
Proof.
  unfold sanitize.
  assert (Hu : (sub_open (strip t) = []
                ∨ (∃ c r, sub_open (strip t) = c :: r ∧ py_isspace c = false)
                  ∧ ends_visible (sub_open (strip t)))
               ∧ sub_open (strip t) `suffix_of` strip t).
  { destruct (strip_trimmed t) as [E|[Hh He]].
    - rewrite E. split; [by left|done].
    - destruct (sub_open_trimmed (strip t)) as [[Hs Hsh]|E]; [by right|done|].
      rewrite E. split; [by right|done]. }
  destruct Hu as [Hu [k1 Hk1]].
  destruct (sub_close_trimmed (sub_open (strip t))) as [[k2 Hk2] Hv].
  { destruct Hu as [->|[_ He]]; [by left|by right]. }
  split.
  - destruct Hv as [Hv|Hv]; [by left|right]. split; [|done].
    destruct (sub_close (sub_open (strip t))) as [|c r] eqn:E.
    { destruct Hv as (a & x & Ha & _). by destruct a. }
    destruct Hu as [Hu|[(c' & r' & Eu & Hc') _]].
    { rewrite Hu in Hk2. done. }
    rewrite Eu in Hk2. injection Hk2 as -> _. eauto.
  - destruct (strip_infix t) as (a & b & Et).
    exists (a ++ k1), (k2 ++ b).
    transitivity (a ++ (k1 ++ (sub_close (sub_open (strip t)) ++ k2)) ++ b).
    + by rewrite <-Hk2, <-Hk1.
    + by rewrite <-!app_assoc.
Qed.


Lemma json_loads_nil : json_loads [] = None.
Proof. done. Qed.




(** ** The encoding of the download link *)

Lemma list_ind3 {A} (P : list A → Prop) :
  P [] → (∀ a, P [a]) → (∀ a b, P [a; b]) →
  (∀ a b c r, P r → P (a :: b :: c :: r)) → ∀ l, P l.
Proof.
  intros H0 H1 H2 H3. fix IH 1. intros [|a [|b [|c r]]]; [done..|].
  apply H3, IH.
Qed.

Lemma sextets x :
  x = 262144 * (x / 262144) + 4096 * ((x / 4096) `mod` 64)
      + 64 * ((x / 64) `mod` 64) + x `mod` 64.
Proof.
  pose proof (N.div_mod x 64) as H1.
  pose proof (N.div_mod (x / 64) 64) as H2.
  pose proof (N.div_mod (x / 4096) 64) as H3.
  replace (x / 262144) with (x / 4096 / 64) by (by rewrite N.Div0.div_div).
  replace (x / 4096) with (x / 64 / 64) in * by (by rewrite N.Div0.div_div).
  lia.
Qed.

Lemma sextets_inj x y :
  x / 262144 = y / 262144 → (x / 4096) `mod` 64 = (y / 4096) `mod` 64 →
  (x / 64) `mod` 64 = (y / 64) `mod` 64 → x `mod` 64 = y `mod` 64 → x = y.
Proof.
  intros H1 H2 H3 H4. rewrite (sextets x), (sextets y). congruence.
Qed.

Lemma sextet_high x : x < 16777216 → x / 262144 < 64.
Proof. intros H. apply N.Div0.div_lt_upper_bound. lia. Qed.

Lemma sextet_low x : x `mod` 64 < 64.
Proof. by apply N.mod_lt. Qed.

Lemma b64_alphabet_NoDup : NoDup b64_alphabet.
Proof. apply (bool_decide_unpack _). by vm_compute. Qed.

Lemma PAD_not_in_alphabet : PAD ∉ b64_alphabet.
Proof. apply (bool_decide_unpack _). by vm_compute. Qed.

Lemma nth_lookup_lt {A} (l : list A) (i : nat) (d : A) :
  (i < length l)%nat → l !! i = Some (nth i l d).
Proof.
  revert i. induction l as [|x l IH]; intros [|i] H; simpl in *;
    [lia..|done|].
  apply IH. lia.
Qed.

Lemma b64_char_lookup i :
  i < 64 → b64_alphabet !! N.to_nat i = Some (b64_char i).
Proof.
  intros H. apply nth_lookup_lt.
  change (length b64_alphabet) with 64%nat. lia.
Qed.

Lemma b64_char_in i : i < 64 → b64_char i ∈ b64_alphabet.
Proof. intros H. eapply list_elem_of_lookup_2. by apply b64_char_lookup. Qed.

Lemma b64_char_inj i j : i < 64 → j < 64 → b64_char i = b64_char j → i = j.
Proof.
  intros Hi Hj E. apply N2Nat.inj.
  eapply (NoDup_lookup b64_alphabet); [apply b64_alphabet_NoDup|..].
  - by apply b64_char_lookup.
  - rewrite E. by apply b64_char_lookup.
Qed.

Lemma b64_char_not_PAD i : i < 64 → b64_char i ≠ PAD.
Proof.
  intros Hi E. apply PAD_not_in_alphabet. rewrite <-E. by apply b64_char_in.
Qed.

Lemma b64_char_symbol i : i < 64 → b64_symbol (b64_char i).
Proof. intros H. left. by apply b64_char_in. Qed.

Lemma nat_div3_step n : ((S (S (S n)) + 2) / 3 = S ((n + 2) / 3))%nat.
Proof.
  replace (S (S (S n)) + 2)%nat with (n + 2 + 1 * 3)%nat by lia.
  rewrite Nat.div_add by done. lia.
Qed.

Ltac symbols :=
  repeat first
    [ apply Forall_nil_2
    | apply Forall_cons_2;
      [ lazymatch goal with
        | |- b64_symbol PAD => right; reflexivity
        | |- b64_symbol (b64_char _) =>
            apply b64_char_symbol;
            first [apply sextet_low | apply sextet_high; lia]
        end | ] ].

(** The encoding is made of the alphabet and the padding, four characters
    for every group of three bytes, the last group filled up. *)
Lemma b64encode_values_form l :
  octets l →
  Forall b64_symbol (b64encode_values l)
  ∧ length (b64encode_values l) = (4 * ((length l + 2) / 3))%nat.
Proof.
  unfold octets. induction l as [|a|a b|a b c r IH] using list_ind3; intros H.
  - split; [apply Forall_nil_2|reflexivity].
  - apply Forall_cons in H as [Ha _]. cbn [b64encode_values]. cbn zeta.
    split; [symbols|reflexivity].
  - apply Forall_cons in H as [Ha [Hb _]%Forall_cons].
    cbn [b64encode_values]. cbn zeta. split; [symbols|reflexivity].
  - apply Forall_cons in H as [Ha [Hb [Hc Hr]%Forall_cons]%Forall_cons].
    destruct (IH Hr) as [IH1 IH2]. cbn [b64encode_values]. cbn zeta. split.
    + symbols. exact IH1.
    + cbn [length]. rewrite IH2, nat_div3_step. lia.
Qed.

Lemma group_low2 a b : (a * 65536 + b * 256) `mod` 64 = 0.
Proof.
  replace (a * 65536 + b * 256) with ((a * 1024 + b * 4) * 64) by lia.
  apply N.Div0.mod_mul.
Qed.

Lemma group_low1 a : (a * 65536) `mod` 64 = 0 ∧ (a * 65536 / 64) `mod` 64 = 0.
Proof.
  split.
  - replace (a * 65536) with (a * 1024 * 64) by lia. apply N.Div0.mod_mul.
  - replace (a * 65536) with (a * 1024 * 64) by lia. rewrite N.div_mul by done.
    replace (a * 1024) with (a * 16 * 64) by lia. apply N.Div0.mod_mul.
Qed.

Ltac sextet_bound := first [apply sextet_low | apply sextet_high; lia].

Ltac sextets_of_chars :=
  repeat match goal with
  | H : b64_char _ = b64_char _ |- _ =>
      apply b64_char_inj in H; [|sextet_bound..]
  end.

Ltac pad_clash :=
  match goal with
  | H : b64_char _ = PAD |- _ =>
      exfalso; revert H; apply b64_char_not_PAD; sextet_bound
  | H : PAD = b64_char _ |- _ =>
      exfalso; symmetry in H; revert H; apply b64_char_not_PAD; sextet_bound
  end.

(** Two byte strings with the same encoding are the same. *)
Lemma b64encode_values_inj l l' :
  octets l → octets l' → b64encode_values l = b64encode_values l' → l = l'.
Proof.
  unfold octets. revert l'.
  induction l as [|a|a b|a b c r IH] using list_ind3;
    intros [|a' [|b' [|c' r']]] H H'; cbn [b64encode_values]; cbn zeta;
    intros E; try discriminate E; try reflexivity;
    repeat match goal with
    | H : Forall _ (_ :: _) |- _ => apply Forall_cons in H as [? H]
    end;
    injection E; clear E; intros; try pad_clash; sextets_of_chars.
  - destruct (group_low1 a) as [L1 L2]. destruct (group_low1 a') as [L1' L2'].
    assert (a * 65536 = a' * 65536) by (apply sextets_inj; congruence).
    f_equal. lia.
  - pose proof (group_low2 a b) as L. pose proof (group_low2 a' b') as L'.
    assert (a * 65536 + b * 256 = a' * 65536 + b' * 256)
      by (apply sextets_inj; congruence).
    assert (a = a' ∧ b = b') as [-> ->] by lia. reflexivity.
  - assert (a * 65536 + b * 256 + c = a' * 65536 + b' * 256 + c')
      by (apply sextets_inj; assumption).
    assert (a = a' ∧ b = b' ∧ c = c') as (-> & -> & ->) by lia.
    f_equal. f_equal. f_equal. apply IH; assumption.
Qed.

Lemma octets_bytes (file_content : bytes) : octets (map Byte.to_N file_content).
Proof.
  apply Forall_map, Forall_forall. intros x _. cbn.
  pose proof (Byte.to_N_bounded x). lia.
Qed.

Lemma to_N_inj x y : Byte.to_N x = Byte.to_N y → x = y.
Proof.
  intros E. pose proof (Byte.of_to_N x) as Hx. rewrite E, Byte.of_to_N in Hx.
  by injection Hx.
Qed.

Lemma b64encode_inj c1 c2 : b64encode c1 = b64encode c2 → c1 = c2.
Proof.
  intros E%b64encode_values_inj; [|apply octets_bytes..].
  revert c2 E. induction c1 as [|x c1 IH]; intros [|y c2] E; try done.
  injection E as E1%to_N_inj E2. f_equal; [done|by apply IH].
Qed.

Lemma create_download_link_inj c1 c2 filename :
  create_download_link c1 filename = create_download_link c2 filename →
  c1 = c2.
Proof.
  unfold create_download_link. cbn zeta.
  intros E%app_inv_head%app_inv_tail. by apply b64encode_inj.
Qed.

Lemma QUOTE_not_symbol : ¬ b64_symbol QUOTE.
Proof.
  intros [H|H]; [|discriminate H].
  revert H. apply (bool_decide_unpack _). by vm_compute.
Qed.

(** * The claims of the specification *)

(** C7. Round trip: for every text [J] that [json.loads] decodes to a
    mapping, sanitizing the fenced form (the opening marker with [json], a
    newline, [J], a newline, the closing marker) and decoding the result
    yields the same mapping as decoding [J]. *)
Theorem fenced_json_roundtrip (J : pystr) (d : list (pystr * json)) :
  json_loads J = Some (JObject d) →
  json_loads (sanitize (fence_json ++ [NEWLINE] ++ J ++ [NEWLINE] ++ fence))
  = Some (JObject d).
Proof. apply sanitize_fenced_loads. Qed.

Lemma fenced_json_roundtrip_witness :
  json_loads (jlit "{'a': 1}") = Some (JObject [(lit "a", JInt 1)])
  ∧ json_loads (sanitize (fence_json ++ [NEWLINE] ++ jlit "{'a': 1}"
                          ++ [NEWLINE] ++ fence))
    = Some (JObject [(lit "a", JInt 1)]).
Proof.
  split; [reflexivity|].
  apply (fenced_json_roundtrip (jlit "{'a': 1}")). reflexivity.
Defined.

(** C8. Sanitization is idempotent on clean text: for every text without
    fence markers the sanitizer returns the text with the surrounding
    whitespace trimmed and nothing else changed, and sanitizing twice gives
    what sanitizing once gives. *)
Theorem sanitize_idempotent_on_clean (t : pystr) :
  has_fence t = false →
  sanitize t = strip t ∧ sanitize (sanitize t) = sanitize t.
Proof.
  intros H%has_fence_false. rewrite !sanitize_clean; try done.
  - by rewrite strip_idem.
  - by apply no_fence_strip.
Qed.

Lemma sanitize_idempotent_on_clean_witness :
  has_fence (jlit "  {'a': 1}
") = false
  ∧ sanitize (jlit "  {'a': 1}
") = jlit "{'a': 1}"
  ∧ sanitize (sanitize (jlit "  {'a': 1}
")) = sanitize (jlit "  {'a': 1}
").
Proof.
  split; [reflexivity|].
  destruct (sanitize_idempotent_on_clean (jlit "  {'a': 1}
")) as [H1 H2]; [reflexivity|].
  split; [rewrite H1; reflexivity|exact H2].
Defined.






(** C10. [convert_pdf_to_images] on an upload whose [read()] raises: the
    handler logs the error, then the [finally] block reads the unbound
    [temp_pdf_path] and the call ends in [UnboundLocalError]. *)
Theorem unreadable_upload_raises_unbound_local
    (image : Type) (png_encode : image → option bytes)
    (convert_from_path : bytes → option (list image))
    (media_type : string) (w : World) :
  (convert_pdf_to_images image png_encode convert_from_path
     {| type := media_type; read := None |} w).1
  = Raise UnboundLocalError.
Proof. by apply convert_pdf_to_images_unreadable. Qed.



(** C3. A run on a PDF of two pages whose JSON response parses: the run
    returns, and the two page files the normalizer wrote are still there.
    The clean-up loop belongs to the handler of [json.JSONDecodeError] and
    does not run. *)
Theorem page_files_outlive_successful_run :
  (Demo.process (jlit "{'a': 1}") Demo.two_pages Demo.w0).1
  = Return (JObject [(lit "a", JInt 1)], lit "An invoice.",
            lit "Item 1,2,$10.00,$20.00")
  ∧ fs (Demo.process (jlit "{'a': 1}") Demo.two_pages Demo.w0).2
      !! "page_1.png" = Some (Binary [Byte.x50; Byte.x01])
  ∧ fs (Demo.process (jlit "{'a': 1}") Demo.two_pages Demo.w0).2
      !! "page_2.png" = Some (Binary [Byte.x50; Byte.x02]).
Proof. split_and!; vm_compute; reflexivity. Qed.

(** C2. A response with prose in front of the fenced JSON: the opening
    marker is not at the start of the text and stays, with the prose; only
    the closing marker goes.  The text does not decode, and the run
    returns the empty mapping where the inner object was expected. *)
Theorem prose_prefix_is_not_stripped :
  sanitize Demo.prose_wrapped
  = lit "Here is the data:
```json
" ++ jlit "{'a': 1}"
  ∧ json_loads (sanitize Demo.prose_wrapped) = None
  ∧ json_loads (jlit "{'a': 1}") = Some (JObject [(lit "a", JInt 1)])
  ∧ (Demo.process Demo.prose_wrapped Demo.photo Demo.w0).1
    = Return (JObject [], lit "An invoice.", lit "Item 1,2,$10.00,$20.00").
Proof. split_and!; vm_compute; reflexivity. Qed.

(** C4 (as the code has it). A run of [process_file] that returns drew
    one credential from the pool, by one call of [random.choice], and sent
    its three requests with that credential. *)
Theorem one_credential_per_document
    (image : Type) (Image_open : bytes → option image)
    (png_encode : image → option bytes)
    (convert_from_path : bytes → option (list image))
    (GEMINI_API_KEYS : list string) (entropy : nat → nat)
    (backend : nat → call → reply)
    (file : UploadedFile) (w w' : World) (result : json * pystr * pystr) :
  process_file image Image_open png_encode convert_from_path
    GEMINI_API_KEYS entropy backend file w = (Return result, w') →
  ∃ key parts,
    GEMINI_API_KEYS !! drawn GEMINI_API_KEYS entropy w = Some key
    ∧ draws w' = S (draws w)
    ∧ calls w' = calls w ++ [request (Some key) parts json_prompt;
                              request (Some key) parts summary_prompt;
                              request (Some key) parts csv_prompt].
Proof. apply process_file_inv. Qed.

Lemma one_credential_per_document_witness :
  ∃ result w',
    Demo.process (jlit "{'a': 1}") Demo.photo Demo.w0 = (Return result, w')
    ∧ ∃ key parts,
        Demo.GEMINI_API_KEYS !! drawn Demo.GEMINI_API_KEYS Demo.entropy Demo.w0
        = Some key
        ∧ draws w' = S (draws Demo.w0)
        ∧ calls w' = calls Demo.w0 ++ [request (Some key) parts json_prompt;
                                        request (Some key) parts summary_prompt;
                                        request (Some key) parts csv_prompt].
Proof.
  eexists _, _. split; [vm_compute; reflexivity|].
  eapply (one_credential_per_document Demo.image Demo.Image_open
            Demo.png_encode Demo.convert_from_path Demo.GEMINI_API_KEYS
            Demo.entropy (Demo.backend (jlit "{'a': 1}")) Demo.photo Demo.w0).
  vm_compute. reflexivity.
Defined.

(** C4, as stated, fails: in a run on one document the random source is
    used once and the three requests carry the same key, where a draw for
    each pass would have taken the second key for the summary pass. *)
Lemma passes_share_one_draw :
  draws (Demo.process (jlit "{'a': 1}") Demo.photo Demo.w0).2 = 1%nat
  ∧ map call_key (calls (Demo.process (jlit "{'a': 1}") Demo.photo Demo.w0).2)
    = [Some "key-a"; Some "key-a"; Some "key-a"]
  ∧ Demo.GEMINI_API_KEYS
      !! (Demo.entropy 1 `mod` length Demo.GEMINI_API_KEYS)%nat
    = Some "key-b".
Proof. split_and!; vm_compute; reflexivity. Qed.



(** * Further properties of the code *)

(** ** The PDF normalizer *)

(** X1. [convert_pdf_to_images] on an upload that can be read: whatever
    the renderer and the encoder do with it, the temporary PDF is gone
    when the function ends; the [finally] block unlinks it. *)
Theorem temp_pdf_is_released
    (image : Type) (png_encode : image → option bytes)
    (convert_from_path : bytes → option (list image))
    (pdf_file : UploadedFile) (content : bytes) (w : World) :
  read pdf_file = Some content →
  fs (convert_pdf_to_images image png_encode convert_from_path pdf_file w).2
    !! tmp_name (tmp_created w) ".pdf" = None.
Proof.
  intros Hread.
  destruct (convert_pdf_to_images image png_encode convert_from_path
              pdf_file w) as [r w'] eqn:E.
  by destruct (convert_pdf_to_images_files image png_encode
                 convert_from_path pdf_file content w r w' Hread E) as [H _].
Qed.

Lemma temp_pdf_is_released_witness :
  read Demo.two_pages = Some [Byte.x01; Byte.x02]
  ∧ fs (Demo.convert Demo.two_pages Demo.w0).2 !! "/tmp/tmp0.pdf" = None.
Proof.
  split; [reflexivity|].
  apply (temp_pdf_is_released Demo.image Demo.png_encode
           Demo.convert_from_path Demo.two_pages [Byte.x01; Byte.x02]
           Demo.w0).
  reflexivity.
Defined.

(** X2. After [convert_pdf_to_images], the file [page_<n+1>.png] of every
    page that was saved holds the PNG encoding of page [n] of the
    rendering. *)
Theorem page_files_hold_encodings
    (image : Type) (png_encode : image → option bytes)
    (convert_from_path : bytes → option (list image))
    (pdf_file : UploadedFile) (content : bytes) (pdf_images : list image)
    (n : nat) (img : image) (w : World) :
  read pdf_file = Some content →
  convert_from_path content = Some pdf_images →
  (n < saved_prefix image png_encode pdf_images)%nat →
  pdf_images !! n = Some img →
  fs (convert_pdf_to_images image png_encode convert_from_path pdf_file w).2
    !! page_path (n + 1) = Binary <$> png_encode img.
Proof.
  intros Hread Hconv Hn Himg.
  destruct (convert_pdf_to_images image png_encode convert_from_path
              pdf_file w) as [r w'] eqn:E.
  destruct (convert_pdf_to_images_files image png_encode
              convert_from_path pdf_file content w r w' Hread E)
    as (_ & H & _).
  rewrite Hconv in H. by apply H.
Qed.

Lemma page_files_hold_encodings_witness :
  fs (Demo.convert Demo.two_pages Demo.w0).2 !! "page_2.png"
  = Some (Binary [Byte.x50; Byte.x02]).
Proof.
  apply (page_files_hold_encodings Demo.image Demo.png_encode
           Demo.convert_from_path Demo.two_pages [Byte.x01; Byte.x02]
           [[Byte.x01]; [Byte.x02]] 1 [Byte.x02] Demo.w0);
    [reflexivity|reflexivity|simpl; lia|reflexivity].
Defined.

(** X3. [convert_pdf_to_images] on an upload that can be read touches no
    file but its temporary PDF and the page files: a path that is neither
    of them holds afterwards what it held before. *)
Theorem convert_leaves_other_files
    (image : Type) (png_encode : image → option bytes)
    (convert_from_path : bytes → option (list image))
    (pdf_file : UploadedFile) (content : bytes) (p : string) (w : World) :
  read pdf_file = Some content →
  p ≠ tmp_name (tmp_created w) ".pdf" →
  (∀ j, p ≠ page_path j) →
  fs (convert_pdf_to_images image png_encode convert_from_path pdf_file w).2
    !! p = fs w !! p.
Proof.
  intros Hread Htmp Hpage.
  destruct (convert_pdf_to_images image png_encode convert_from_path
              pdf_file w) as [r w'] eqn:E.
  destruct (convert_pdf_to_images_files image png_encode
              convert_from_path pdf_file content w r w' Hread E)
    as (_ & _ & H).
  apply H; [done|]. intros j _. apply Hpage.
Qed.

Lemma convert_leaves_other_files_witness :
  fs (Demo.convert Demo.two_pages Demo.w_notes).2 !! "notes.txt"
  = Some (Text (lit "keep")).
Proof.
  apply (convert_leaves_other_files Demo.image Demo.png_encode
           Demo.convert_from_path Demo.two_pages [Byte.x01; Byte.x02]
           "notes.txt" Demo.w_notes).
  - reflexivity.
  - vm_compute. discriminate.
  - intros j. unfold page_path. cbn [String.append]. discriminate.
Defined.

(** X4. The normalizer on a PDF whose pages are all rendered and
    encoded: one page file per page, named in page order from
    [page_1.png] on, and one [image/png] part per page that carries the
    encoding of that page, in the same order. *)
Theorem pdf_pages_become_png_parts
    (image : Type) (Image_open : bytes → option image)
    (png_encode : image → option bytes)
    (convert_from_path : bytes → option (list image))
    (file : UploadedFile) (content : bytes) (pdf_images : list image)
    (encodings : list bytes) (w : World) :
  type file = "application/pdf" →
  read file = Some content →
  convert_from_path content = Some pdf_images →
  Forall2 (fun img b => png_encode img = Some b) pdf_images encodings →
  (normalize image Image_open png_encode convert_from_path file w).1
  = Return (map page_path (seq 1 (length pdf_images)),
            map png_part encodings).
Proof. apply normalize_pdf_pages. Qed.

Lemma pdf_pages_become_png_parts_witness :
  (normalize Demo.image Demo.Image_open Demo.png_encode
     Demo.convert_from_path Demo.two_pages Demo.w0).1
  = Return (["page_1.png"; "page_2.png"],
            [png_part [Byte.x50; Byte.x01]; png_part [Byte.x50; Byte.x02]]).
Proof.
  apply (pdf_pages_become_png_parts Demo.image Demo.Image_open
           Demo.png_encode Demo.convert_from_path Demo.two_pages
           [Byte.x01; Byte.x02] [[Byte.x01]; [Byte.x02]]
           [[Byte.x50; Byte.x01]; [Byte.x50; Byte.x02]] Demo.w0);
    [reflexivity|reflexivity|reflexivity|].
  repeat constructor.
Defined.

(** X5. The normalizer on a PDF the renderer rejects raises nothing: the
    pipeline goes on with no page image and no part. *)
Theorem rejected_pdf_gives_no_parts
    (image : Type) (Image_open : bytes → option image)
    (png_encode : image → option bytes)
    (convert_from_path : bytes → option (list image))
    (file : UploadedFile) (content : bytes) (w : World) :
  type file = "application/pdf" →
  read file = Some content →
  convert_from_path content = None →
  (normalize image Image_open png_encode convert_from_path file w).1
  = Return ([], []).
Proof. apply normalize_pdf_rejected. Qed.

Lemma rejected_pdf_gives_no_parts_witness :
  (normalize Demo.image Demo.Image_open Demo.png_encode
     Demo.convert_from_path Demo.corrupt Demo.w0).1 = Return ([], []).
Proof.
  apply (rejected_pdf_gives_no_parts Demo.image Demo.Image_open
           Demo.png_encode Demo.convert_from_path Demo.corrupt [] Demo.w0);
    reflexivity.
Defined.

(** ** The orchestrator *)

(** X6. When the normalizer raises, [process_file] raises the same
    exception in the same state: no credential is drawn and no request is
    sent. *)
Theorem normalize_failure_sends_nothing
    (image : Type) (Image_open : bytes → option image)
    (png_encode : image → option bytes)
    (convert_from_path : bytes → option (list image))
    (GEMINI_API_KEYS : list string) (entropy : nat → nat)
    (backend : nat → call → reply)
    (file : UploadedFile) (w : World) (e : exn) :
  (normalize image Image_open png_encode convert_from_path file w).1
  = Raise e →
  process_file image Image_open png_encode convert_from_path
    GEMINI_API_KEYS entropy backend file w
  = (Raise e,
     (normalize image Image_open png_encode convert_from_path file w).2)
  ∧ calls (process_file image Image_open png_encode convert_from_path
             GEMINI_API_KEYS entropy backend file w).2 = calls w
  ∧ draws (process_file image Image_open png_encode convert_from_path
             GEMINI_API_KEYS entropy backend file w).2 = draws w.
Proof.
  intros H.
  destruct (normalize image Image_open png_encode convert_from_path file w)
    as [r w1] eqn:E.
  cbn [fst snd] in *. subst r.
  destruct (process_file_normalize_raises image Image_open png_encode
              convert_from_path GEMINI_API_KEYS entropy backend file w e w1 E)
    as (-> & Hc & Hd).
  done.
Qed.

Lemma normalize_failure_sends_nothing_witness :
  (Demo.process (jlit "{'a': 1}") Demo.unreadable Demo.w0).1
  = Raise UnboundLocalError
  ∧ calls (Demo.process (jlit "{'a': 1}") Demo.unreadable Demo.w0).2 = []
  ∧ draws (Demo.process (jlit "{'a': 1}") Demo.unreadable Demo.w0).2 = 0%nat.
Proof.
  destruct (normalize_failure_sends_nothing Demo.image Demo.Image_open
              Demo.png_encode Demo.convert_from_path Demo.GEMINI_API_KEYS
              Demo.entropy (Demo.backend (jlit "{'a': 1}"))
              Demo.unreadable Demo.w0 UnboundLocalError)
    as (Hrun & Hc & Hd); [reflexivity|].
  unfold Demo.process. split_and!; [by rewrite Hrun|exact Hc|exact Hd].
Defined.



(** X8. When the backend fails the first request, [process_file] ends in
    that error after one draw and one request: there is no second attempt
    with another credential, and the page images stay on disk. *)
Theorem backend_failure_is_not_retried
    (image : Type) (Image_open : bytes → option image)
    (png_encode : image → option bytes)
    (convert_from_path : bytes → option (list image))
    (GEMINI_API_KEYS : list string) (entropy : nat → nat)
    (backend : nat → call → reply)
    (file : UploadedFile) (w w1 : World) (images : list string)
    (parts : list part) (key : string) :
  normalize image Image_open png_encode convert_from_path file w
  = (Return (images, parts), w1) →
  GEMINI_API_KEYS !! drawn GEMINI_API_KEYS entropy w = Some key →
  backend (length (calls w)) (request (Some key) parts json_prompt)
  = Failure →
  ∃ w',
    process_file image Image_open png_encode convert_from_path
      GEMINI_API_KEYS entropy backend file w
    = (Raise BackendError, w')
    ∧ fs w' = fs w1
    ∧ calls w' = calls w ++ [request (Some key) parts json_prompt]
    ∧ draws w' = S (draws w).
Proof. apply process_file_backend_failure. Qed.

Lemma backend_failure_is_not_retried_witness :
  ∃ w',
    process_file Demo.image Demo.Image_open Demo.png_encode
      Demo.convert_from_path Demo.GEMINI_API_KEYS Demo.entropy Demo.failing
      Demo.photo Demo.w0
    = (Raise BackendError, w')
    ∧ fs w' !! "temp_image.png"
      = Some (Binary [Byte.x50; Byte.xff; Byte.xd8])
    ∧ length (calls w') = 1%nat ∧ draws w' = 1%nat.
Proof.
  destruct (backend_failure_is_not_retried Demo.image Demo.Image_open
              Demo.png_encode Demo.convert_from_path Demo.GEMINI_API_KEYS
              Demo.entropy Demo.failing Demo.photo Demo.w0
              (normalize Demo.image Demo.Image_open Demo.png_encode
                 Demo.convert_from_path Demo.photo Demo.w0).2
              ["temp_image.png"]
              [{| mime_type := "image/png";
                  data := [Byte.x50; Byte.xff; Byte.xd8] |}]
              "key-a")
    as (w' & Hrun & Hfs & Hcalls & Hdraws);
    [vm_compute; reflexivity|reflexivity..|].
  exists w'. split; [exact Hrun|]. rewrite Hfs, Hcalls, Hdraws.
  split_and!; reflexivity.
Defined.

(** X9. When the first response carries no text, reading [.text] raises
    [ValueError]; the handler of [json.JSONDecodeError] does not catch it,
    so [process_file] ends in [ValueError] after one request, the page
    images left on disk. *)
Theorem response_without_text_raises
    (image : Type) (Image_open : bytes → option image)
    (png_encode : image → option bytes)
    (convert_from_path : bytes → option (list image))
    (GEMINI_API_KEYS : list string) (entropy : nat → nat)
    (backend : nat → call → reply)
    (file : UploadedFile) (w w1 : World) (images : list string)
    (parts : list part) (key : string) :
  normalize image Image_open png_encode convert_from_path file w
  = (Return (images, parts), w1) →
  GEMINI_API_KEYS !! drawn GEMINI_API_KEYS entropy w = Some key →
  backend (length (calls w)) (request (Some key) parts json_prompt)
  = Answer WithoutText →
  ∃ w',
    process_file image Image_open png_encode convert_from_path
      GEMINI_API_KEYS entropy backend file w
    = (Raise ValueError, w')
    ∧ fs w' = fs w1
    ∧ calls w' = calls w ++ [request (Some key) parts json_prompt].
Proof. apply process_file_no_text. Qed.

Lemma response_without_text_raises_witness :
  ∃ w',
    process_file Demo.image Demo.Image_open Demo.png_encode
      Demo.convert_from_path Demo.GEMINI_API_KEYS Demo.entropy Demo.mute
      Demo.photo Demo.w0
    = (Raise ValueError, w')
    ∧ fs w' !! "temp_image.png"
      = Some (Binary [Byte.x50; Byte.xff; Byte.xd8])
    ∧ length (calls w') = 1%nat.
Proof.
  destruct (response_without_text_raises Demo.image Demo.Image_open
              Demo.png_encode Demo.convert_from_path Demo.GEMINI_API_KEYS
              Demo.entropy Demo.mute Demo.photo Demo.w0
              (normalize Demo.image Demo.Image_open Demo.png_encode
                 Demo.convert_from_path Demo.photo Demo.w0).2
              ["temp_image.png"]
              [{| mime_type := "image/png";
                  data := [Byte.x50; Byte.xff; Byte.xd8] |}]
              "key-a")
    as (w' & Hrun & Hfs & Hcalls);
    [vm_compute; reflexivity|reflexivity..|].
  exists w'. split; [exact Hrun|]. rewrite Hfs, Hcalls.
  split; reflexivity.
Defined.



(** X11. [get_random_api_key] on a pool that is not empty returns a
    credential of the pool, by one draw; it sends nothing and touches no
    file. *)
Theorem api_key_is_drawn_from_pool
    (GEMINI_API_KEYS : list string) (entropy : nat → nat) (w : World) :
  GEMINI_API_KEYS ≠ [] →
  ∃ key w',
    get_random_api_key GEMINI_API_KEYS entropy w = (Return key, w')
    ∧ key ∈ GEMINI_API_KEYS
    ∧ draws w' = S (draws w) ∧ calls w' = calls w ∧ fs w' = fs w.
Proof. apply get_random_api_key_member. Qed.

Lemma api_key_is_drawn_from_pool_witness :
  ∃ key w',
    get_random_api_key Demo.GEMINI_API_KEYS Demo.entropy Demo.w0
    = (Return key, w')
    ∧ key ∈ Demo.GEMINI_API_KEYS
    ∧ draws w' = 1%nat ∧ calls w' = [] ∧ fs w' = ∅.
Proof.
  apply (api_key_is_drawn_from_pool Demo.GEMINI_API_KEYS Demo.entropy
           Demo.w0).
  discriminate.
Defined.

(** ** The JSON step and its handler *)






(** ** The sanitizer *)

(** X15. What the sanitizer returns has no whitespace at either end:
    stripping it again changes nothing. *)
Theorem sanitize_result_is_trimmed (t : pystr) :
  strip (sanitize t) = sanitize t.
Proof.
  destruct (sanitize_shape t) as [[->|[Hh He]] _]; [done|].
  by apply strip_fixed.
Qed.

(** X16. The sanitizer only cuts at the two ends: what it returns is a
    stretch of the response, nothing is inserted or rewritten inside. *)
Theorem sanitize_keeps_a_stretch (t : pystr) :
  ∃ a b, t = a ++ sanitize t ++ b.
Proof. apply sanitize_shape. Qed.



(** ** The download link *)

(** X18. The payload of the download link is well formed: it consists of
    characters of the base64 alphabet and the padding character, so the
    content cannot end the [href] attribute, and it has four characters
    for every three bytes of the content, rounded up. *)
Theorem b64encode_is_wellformed (file_content : bytes) :
  Forall b64_symbol (b64encode file_content)
  ∧ (QUOTE ∉ b64encode file_content)
  ∧ length (b64encode file_content)
    = (4 * ((length file_content + 2) / 3))%nat.
Proof.
  destruct (b64encode_values_form (map Byte.to_N file_content)
              (octets_bytes file_content)) as [Hs Hl].
  rewrite length_map in Hl. split_and!; [exact Hs| |exact Hl].
  intros Hq. eapply Forall_forall in Hs; [|exact Hq].
  by apply QUOTE_not_symbol in Hs.
Qed.

(** X19. Two contents that differ give two links that differ, under the
    same file name: the link determines the content it carries. *)
Theorem download_links_differ
    (c1 c2 : bytes) (filename : pystr) :
  c1 ≠ c2 →
  create_download_link c1 filename ≠ create_download_link c2 filename.
Proof. intros Hne E. by apply Hne, (create_download_link_inj c1 c2 filename). Qed.

Lemma download_links_differ_witness :
  create_download_link [Byte.x01] (lit "invoice_outputs.zip")
  ≠ create_download_link [Byte.x02] (lit "invoice_outputs.zip").
Proof.
  apply (download_links_differ [Byte.x01] [Byte.x02]
           (lit "invoice_outputs.zip")).
  discriminate.
Defined.
